(** * PaddingOracleAttack (poa.py): a shallow embedding and its properties

    The Python class [PaddingOracleAttack] implements Bleichenbacher's
    chosen-ciphertext attack on RSA PKCS#1 v1.5.  Python integers are
    unbounded, hence [Z]; the interval set [M] is a Python [set] of pairs,
    hence [gset (Z * Z)]; the [while True] loops carry a fuel argument and
    return [None] when it runs out. *)

From Stdlib Require Import ZArith Zpow_facts Lia List String Ascii HexadecimalString HexadecimalN.
From stdpp Require Import base numbers list sets gmap.

Local Open Scope Z_scope.

(** ** Integer division helpers

    The module is Python 2 without [from __future__ import division], so
    [x/y] and [x//y] on integers are both floor division, and [x%y] takes
    the sign of [y]: exactly [Z.div] and [Z.modulo] for [y <> 0] (Python
    raises [ZeroDivisionError] for [y = 0]).  The boolean [(x%y != 0)] is
    added as 0 or 1. *)

Definition _ceil (x y : Z) : Z := x / y + Z.b2z (negb (x mod y =? 0)).

Definition _floor (x y : Z) : Z := x / y.

(** ** Outcomes of a call

    A call returns a value, raises a Python exception, or (in the model
    only) exhausts the fuel given to its unbounded loops. *)

Inductive exn : Set := ValueError | KeyError.

Inductive result (A : Type) : Type :=
| Return (a : A)
| Raise (e : exn)
| OutOfFuel.
Arguments Return {A} a.
Arguments Raise {A} e.
Arguments OutOfFuel {A}.

#[global] Instance result_bind : MBind result := fun A C f m =>
  match m with
  | Return a => f a
  | Raise e => Raise e
  | OutOfFuel => OutOfFuel
  end.

Definition of_fuel {A : Type} (o : option A) : result A :=
  match o with Some a => Return a | None => OutOfFuel end.

(** [range(lo, hi)] of Python 2: the list [lo, lo+1, ..., hi-1]. *)
Definition range (lo hi : Z) : list Z := seqZ lo (hi - lo).

(** ** The external RSA primitive *)

Module rsa_core.
(** Modelled from the spec: [rsa.core.encrypt_int(message, ekey, n)] comes
    from the [rsa] package, whose source is not part of the repository.
    The specification takes it as the modular-exponentiation primitive
    [pow(message, ekey, n)]: the trial ciphertext of a multiplier [s] is
    [(s^b mod n * y0) mod n]. *)
Definition encrypt_int (message ekey n : Z) : Z := (message ^ ekey) mod n.
End rsa_core.

(** ** Output formatting: ['%0256x' % v]

    Lowercase hexadecimal digits without prefix, padded on the left with
    ['0'] up to a minimum width; a negative number keeps its sign in front
    and the sign counts in the width. *)

Definition hex (v : N) : string :=
  HexadecimalString.NilZero.string_of_uint (N.to_hex_uint v).

Fixpoint zeros (c : nat) : string :=
  match c with
  | O => EmptyString
  | S c' => String "0"%char (zeros c')
  end.

Definition zfill (width : nat) (s : string) : string :=
  (zeros (width - String.length s) ++ s)%string.

Definition format_0x (width : nat) (v : Z) : string :=
  if v <? 0
  then String "-"%char (zfill (width - 1) (hex (Z.abs_N v)))
  else zfill width (hex (Z.abs_N v)).

Definition format_0256x (v : Z) : string := format_0x 256 v.

(** ** The class [PaddingOracleAttack] *)

Module PaddingOracleAttack.

(** The instance: [y0] holds the raw ciphertext bytes after construction
    and the decoded integer once [run_attack] has started, hence the
    parameter [Y]. *)
Record attack (Y : Type) : Type := Build {
  padding_oracle : Z -> bool;
  k : Z;
  n : Z;
  y0 : Y;
  b : Z;
  B : Z;
  B2 : Z;
  B3 : Z
}.
Arguments Build {Y}.
Arguments padding_oracle {Y}.
Arguments k {Y}.
Arguments n {Y}.
Arguments y0 {Y}.
Arguments b {Y}.
Arguments B {Y}.
Arguments B2 {Y}.
Arguments B3 {Y}.

(** [__init__] stores its arguments and derives [B], [2B], [3B]; it has
    no other statement.  ([2**(k-16)] is an integer for [k >= 16].) *)
Definition __init__ {Y} (k n b : Z) (y0 : Y) (padding_oracle : Z -> bool)
  : result (attack Y) :=
  let B := 2 ^ (k - 16) in
  Return (Build padding_oracle k n y0 b B (2 * B) (3 * B)).

Definition set_y0 {Y Y'} (self : attack Y) (v : Y') : attack Y' :=
  Build self.(padding_oracle) self.(k) self.(n) v self.(b)
        self.(B) self.(B2) self.(B3).

(** [long(binascii.hexlify(bin_data), 16)]: the bytes read as a
    big-endian number; [long('', 16)] raises [ValueError]. *)
Definition _bin2long (bin_data : list Byte.byte) : result Z :=
  match bin_data with
  | [] => Raise ValueError
  | _ => Return (foldl (fun acc c => acc * 256 + Z.of_N (Byte.to_N c)) 0 bin_data)
  end.

Section methods.
Context {Y : Type} (self : attack Y).

Definition _encrypt_int (plaintext : Z) : Z :=
  rsa_core.encrypt_int plaintext self.(b) self.(n).

(** The trial ciphertext sent to the oracle for a multiplier. *)
Definition trial (s y0 : Z) : Z := (_encrypt_int s * y0) mod self.(n).

(** The oracle accepts the trial ciphertext of multiplier [s]. *)
Definition accepted (y0 s : Z) : Prop :=
  self.(padding_oracle) (trial s y0) = true.

Fixpoint _search_s1 (fuel : nat) (start_value y0 : Z) : option Z :=
  match fuel with
  | O => None
  | S fuel' =>
      let s1 := start_value in
      let y1 := (_encrypt_int s1 * y0) mod self.(n) in
      if self.(padding_oracle) y1 then Some s1
      else _search_s1 fuel' (s1 + 1) y0
  end.

(** [newM |= set([(newa,newb)])] is the union with a singleton. *)
Definition _calculate_intervals (s1 : Z) : gset (Z * Z) :=
  foldl (fun newM r =>
           let aa := _ceil (self.(B2) + r * self.(n)) s1 in
           let bb := _floor (self.(B3) - 1 + r * self.(n)) s1 in
           let newa := Z.max self.(B2) aa in
           let newb := Z.min (self.(B3) - 1) bb in
           if decide (newa <= newb) then newM ∪ {[ (newa, newb) ]} else newM)
        ∅
        (range (_ceil (self.(B2) * s1 - self.(B3) + 1) self.(n))
               (_floor ((self.(B3) - 1) * s1 - self.(B2)) self.(n) + 1)).

(** The body of [for (a,b) in M], as a fold over the elements in the
    order the iteration yields them. *)
Definition narrow_list (si : Z) (l : list (Z * Z)) : gset (Z * Z) :=
  foldl (fun newM '(a, b) =>
           foldl (fun newM r =>
                    let aa := _ceil (self.(B2) + r * self.(n)) si in
                    let bb := _floor (self.(B3) - 1 + r * self.(n)) si in
                    let newa := Z.max a aa in
                    let newb := Z.min b bb in
                    if decide (newa <= newb) then newM ∪ {[ (newa, newb) ]}
                    else newM)
                 newM
                 (range (_ceil (a * si - self.(B3) + 1) self.(n))
                        (_floor (b * si - self.(B2)) self.(n) + 1)))
        ∅ l.

Definition _narrow_intervals (si : Z) (M : gset (Z * Z)) : gset (Z * Z) :=
  narrow_list si (elements M).

(** [set.pop()] removes and returns an arbitrary element and raises
    [KeyError] on the empty set; [run_attack] puts the element back at
    once, so only the choice matters.  [pop] is that choice. *)
Variable pop : gset (Z * Z) -> option (Z * Z).

Definition pop_add (newM : gset (Z * Z)) : result (Z * Z) :=
  match pop newM with
  | Some elem => Return elem
  | None => Raise KeyError
  end.
End methods.

Section refiner.
Context (self : attack Z).

(** The [while not found] loop of [_just_one_interval]; [find] is the
    [for si in range(...)] scan that stops at the first accepted
    multiplier. *)
Fixpoint _just_one_interval_loop (fuel : nat) (r a b : Z) : option Z :=
  match fuel with
  | O => None
  | S fuel' =>
      match find (fun si =>
                    let yi := (_encrypt_int self si * self.(y0)) mod self.(n) in
                    self.(padding_oracle) yi)
                 (range (_ceil (self.(B2) + r * self.(n)) b)
                        (_floor (self.(B3) - 1 + r * self.(n)) a + 1)) with
      | Some si => Some si
      | None => _just_one_interval_loop fuel' (r + 1) a b
      end
  end.

Definition _just_one_interval (fuel : nat) (si a b : Z) : option Z :=
  let r := _ceil ((b * si - self.(B2)) * 2) self.(n) in
  _just_one_interval_loop fuel r a b.

Variable pop : gset (Z * Z) -> option (Z * Z).

(** [while len(newM) > 1]: narrow with the current multiplier, then
    search the next one. *)
Fixpoint multi_interval_loop (fuel fuel0 : nat) (s1 : Z) (newM : gset (Z * Z))
  : result (Z * gset (Z * Z)) :=
  if decide (1 < size newM)%nat then
    match fuel with
    | O => OutOfFuel
    | S fuel' =>
        let newM := _narrow_intervals self s1 newM in
        s1 ← of_fuel (_search_s1 self fuel0 (s1 + 1) self.(y0));
        multi_interval_loop fuel' fuel0 s1 newM
    end
  else Return (s1, newM).

(** The final [while True]: refine, narrow, and stop on a point. *)
Fixpoint single_interval_loop (fuel fuel0 : nat) (s1 : Z) (elem : Z * Z)
  (newM : gset (Z * Z)) : result string :=
  match fuel with
  | O => OutOfFuel
  | S fuel' =>
      s1 ← of_fuel (_just_one_interval fuel0 s1 elem.1 elem.2);
      let newM := _narrow_intervals self s1 newM in
      elem ← pop_add pop newM;
      if decide (elem.1 = elem.2) then Return (format_0256x elem.1)
      else single_interval_loop fuel' fuel0 s1 elem newM
  end.
End refiner.

(** The first multiplier tried by [run_attack]. *)
Definition s1_start_value {Y} (self : attack Y) : Z := _ceil self.(n) self.(B3).

(** [run_attack]: every unbounded loop may run [fuel] times. *)
Definition run_attack (pop : gset (Z * Z) -> option (Z * Z)) (fuel : nat)
  (self : attack (list Byte.byte)) : result string :=
  y0 ← _bin2long self.(y0);
  let self := set_y0 self y0 in
  let s1_start_value := s1_start_value self in
  s1 ← of_fuel (_search_s1 self fuel s1_start_value self.(PaddingOracleAttack.y0));
  let newM := _calculate_intervals self s1 in
  '(s1, newM) ← multi_interval_loop self fuel fuel s1 newM;
  elem ← pop_add pop newM;
  single_interval_loop self pop fuel fuel s1 elem newM.

End PaddingOracleAttack.

Import PaddingOracleAttack.

(** ** The Interval Narrower as the specification words it

    Ceiling and floor of a quotient, the pair obtained from one source
    interval and one ratio [r], the pairs kept for one source interval, and
    their union over the set. *)

Definition cdiv (x y : Z) : Z := - ((- x) / y).
Definition fdiv (x y : Z) : Z := x / y.

Section narrower_spec.
Context {Y : Type} (self : attack Y).

Definition narrowed_pair (si : Z) (ab : Z * Z) (r : Z) : Z * Z :=
  (Z.max ab.1 (cdiv (self.(B2) + r * self.(n)) si),
   Z.min ab.2 (fdiv (self.(B3) - 1 + r * self.(n)) si)).

Definition narrow_one (si : Z) (ab : Z * Z) : gset (Z * Z) :=
  let r_min := cdiv (ab.1 * si - self.(B3) + 1) self.(n) in
  let r_max := fdiv (ab.2 * si - self.(B2)) self.(n) in
  list_to_set (filter (fun p => p.1 <= p.2)
                      (narrowed_pair si ab <$> seqZ r_min (r_max - r_min + 1))).

Definition narrow_spec (si : Z) (M : gset (Z * Z)) : gset (Z * Z) :=
  set_bind (narrow_one si) M.
End narrower_spec.

(** ** Notions used to state the Single-Interval Refiner

    The oracle's answer on the trial ciphertext of a multiplier, and the
    range [[ceil((B2 + r*n)/b), floor((B3-1 + r*n)/a)]] that the refiner
    scans for a ratio [r]. *)

Definition oracle_on (self : attack Z) (t : Z) : bool :=
  self.(padding_oracle) (trial self t self.(y0)).

Definition scanned {Y : Type} (self : attack Y) (a b0 r t : Z) : Prop :=
  _ceil (self.(B2) + r * self.(n)) b0 <= t
    <= _floor (self.(B3) - 1 + r * self.(n)) a.

(** ** A small key to run the attack on

    A 24-bit RSA key ([n = 1571 * 9661], public exponent 11, private
    exponent 2757491), the 3-byte block [00 02 ff] as plaintext, and the
    oracle that decrypts with the private key and checks that the block
    starts with [00 02], i.e. that the plaintext lies in [[2B, 3B-1]]. *)

Module key24.
Definition modulus : Z := 15177431.
Definition public_exponent : Z := 11.
Definition private_exponent : positive := 2757491.
Definition plaintext : Z := 767.

(** Square-and-multiply modular exponentiation. *)
Definition powmod (x : Z) (e : positive) (m : Z) : Z :=
  Pos.iter_op (fun u v => (u * v) mod m) e (x mod m).

Definition decrypt (c : Z) : Z := powmod c private_exponent modulus.

Definition oracle (c : Z) : bool :=
  (512 <=? decrypt c) && (decrypt c <=? 767).

(** The ciphertext [767^11 mod n = 0x02bdd7], as raw bytes. *)
Definition ciphertext : list Byte.byte := [Byte.x02; Byte.xbd; Byte.xd7].

Definition self : attack (list Byte.byte) :=
  Build oracle 24 modulus ciphertext public_exponent 256 512 768.

(** The same instance once [run_attack] has decoded [y0]. *)
Definition self_long : attack Z := set_y0 self 179671.

(** One admissible behaviour of [set.pop()]. *)
Definition pop_first (M : gset (Z * Z)) : option (Z * Z) := head (elements M).
End key24.

(** ** Notions used to state the construction claim

    Parameters are consistent when [n] is sized to [k] bits and [b > 1];
    a call fails when it raises. *)

Definition consistent_parameters (k n b : Z) : Prop :=
  2 ^ (k - 1) < n < 2 ^ k /\ 1 < b.

Definition fails {A : Type} (r : result A) : Prop := exists e, r = Raise e.

(** The output width the specification asks for: [ceil(k/4)] digits. *)
Definition hex_width (k : Z) : Z := cdiv k 4.

(** ** Notions used to state further properties of the code *)

(** The value of a byte string read as a big-endian number. *)
Definition big_endian (bin_data : list Byte.byte) : Z :=
  foldl (fun acc c => acc * 256 + Z.of_N (Byte.to_N c)) 0 bin_data.

(** Reading a hexadecimal numeral back, as [int(s, 16)] does on digits. *)
Definition parse_hex (s : string) : option N :=
  option_map N.of_hex_uint (HexadecimalString.NilEmpty.uint_of_string s).

(** [v] lies in one of the intervals of [M]. *)
Definition covers (M : gset (Z * Z)) (v : Z) : Prop :=
  exists a b0 : Z, (a, b0) ∈ M /\ a <= v <= b0.

(** Multiplying the candidate plaintext [v] by [s] modulo [n] lands in
    [[B2, B3-1]]: what an accepted multiplier [s] says about [v]. *)
Definition consistent {Y : Type} (self : attack Y) (v s : Z) : Prop :=
  self.(B2) <= (v * s) mod self.(n) <= self.(B3) - 1.

(** The oracle accepts a positive multiplier only if it is consistent with
    the plaintext [m0]. *)
Definition sound_for {Y : Type} (self : attack Y) (y0 m0 : Z) : Prop :=
  forall s, 0 < s -> accepted self y0 s -> consistent self m0 s.

(** What [set.pop()] guarantees: an element of the set, or [KeyError] on
    the empty set only. *)
Definition pop_contract (pop : gset (Z * Z) -> option (Z * Z)) : Prop :=
  forall M, match pop M with Some elem => elem ∈ M | None => M = ∅ end.

(** An instance with public exponent 1, for which encryption is the
    identity and the oracle can read the plaintext off the ciphertext: the
    block [02 ff] is its own ciphertext. *)
Definition exponent_one : attack (list Byte.byte) :=
  Build (fun c => (512 <=? c) && (c <=? 767)) 24 15177431
        [Byte.x02; Byte.xff] 1 256 512 768.

(** The same instance once [run_attack] has decoded [y0]. *)
Definition exponent_one_long : attack Z := set_y0 exponent_one 767.

(** No candidate lies in two intervals of [M]. *)
Definition pairwise_disjoint (M : gset (Z * Z)) : Prop :=
  forall (p q : Z * Z) (v : Z),
    p ∈ M -> q ∈ M -> p.1 <= v <= p.2 -> q.1 <= v <= q.2 -> p = q.

(** * Properties *)

(** ** Exact ceiling and floor division *)

Lemma _floor_bounds x y : 0 < y -> y * _floor x y <= x < y * (_floor x y + 1).
Proof.
  intros Hy. unfold _floor.
  pose proof (Z.div_mod x y ltac:(lia)). pose proof (Z.mod_pos_bound x y Hy). lia.
Qed.

Lemma _ceil_bounds x y : 0 < y -> y * (_ceil x y - 1) < x <= y * _ceil x y.
Proof.
  intros Hy. unfold _ceil.
  pose proof (Z.div_mod x y ltac:(lia)). pose proof (Z.mod_pos_bound x y Hy).
  destruct (Z.eqb_spec (x mod y) 0); simpl; lia.
Qed.

Lemma _floor_ge_iff x y q : 0 < y -> q <= _floor x y <-> q * y <= x.
Proof.
  intros Hy. pose proof (_floor_bounds x y Hy). split; intros; nia.
Qed.

Lemma _ceil_le_iff x y c : 0 < y -> _ceil x y <= c <-> x <= c * y.
Proof.
  intros Hy. pose proof (_ceil_bounds x y Hy). split; intros; nia.
Qed.

(** C10.  For every integer [x] and positive [y], [_ceil x y] is the
    ceiling of [x/y] (the least integer [c] with [x <= c*y]; it lies in
    [(x/y - 1 + 1/y .. x/y]] rounded up) and [_floor x y] is the floor of
    [x/y] (the greatest integer [q] with [q*y <= x]), whether or not [y]
    divides [x] and whatever the sign of [x]. *)
Theorem ceil_floor_exact (x y : Z) :
  0 < y ->
  (y * (_ceil x y - 1) < x <= y * _ceil x y) /\
  (forall c, x <= c * y <-> _ceil x y <= c) /\
  (y * _floor x y <= x < y * (_floor x y + 1)) /\
  (forall q, q * y <= x <-> q <= _floor x y).
Proof.
  intros Hy. split; [|split; [|split]].
  - by apply _ceil_bounds.
  - intros c. symmetry. by apply _ceil_le_iff.
  - by apply _floor_bounds.
  - intros q. symmetry. by apply _floor_ge_iff.
Qed.

Lemma ceil_floor_exact_witness :
  0 < 4 /\
  (4 * (_ceil (-7) 4 - 1) < -7 <= 4 * _ceil (-7) 4) /\
  (forall c, -7 <= c * 4 <-> _ceil (-7) 4 <= c) /\
  (4 * _floor (-7) 4 <= -7 < 4 * (_floor (-7) 4 + 1)) /\
  (forall q, q * 4 <= -7 <-> q <= _floor (-7) 4).
Proof. split; [lia | apply (ceil_floor_exact (-7) 4); lia]. Defined.

Example _ceil_neg : _ceil (-7) 4 = -1. Proof. reflexivity. Qed.
Example _floor_neg : _floor (-7) 4 = -2. Proof. reflexivity. Qed.
Example _ceil_divides : _ceil 8 4 = 2. Proof. reflexivity. Qed.
Example _ceil_rounds_up : _ceil 9 4 = 3. Proof. reflexivity. Qed.

Lemma elem_of_range lo hi r : r ∈ range lo hi <-> lo <= r < hi.
Proof. unfold range. rewrite elem_of_seqZ. lia. Qed.

(** ** Candidate Search *)

Section candidate_search.
Context {Y : Type} (self : attack Y) (y0 : Z).

Lemma trial_eq s :
  trial self s y0 = ((s ^ self.(b)) mod self.(n) * y0) mod self.(n).
Proof. reflexivity. Qed.

(** What a result of the loop means, for any fuel. *)
Lemma _search_s1_Some fuel start_value s1 :
  _search_s1 self fuel start_value y0 = Some s1 <->
  start_value <= s1 < start_value + Z.of_nat fuel /\ accepted self y0 s1 /\
  forall t, start_value <= t < s1 -> ~ accepted self y0 t.
Proof.
  unfold accepted, trial.
  revert start_value. induction fuel as [|fuel IH]; intros start_value.
  - simpl. split; [discriminate | lia].
  - cbn [_search_s1].
    destruct (self.(padding_oracle)
                ((_encrypt_int self start_value * y0) mod self.(n))) eqn:Hq.
    + split.
      * intros [= <-]. split; [lia|]. split; [done|]. intros t Ht. lia.
      * intros (Hr & Hacc & Hleast). f_equal.
        destruct (decide (start_value = s1)) as [|Hne]; [done|].
        exfalso. apply (Hleast start_value); [lia | done].
    + rewrite IH. split.
      * intros (Hr & Hacc & Hleast). split; [lia|]. split; [done|].
        intros t Ht. destruct (decide (t = start_value)) as [->|Hne].
        -- by rewrite Hq.
        -- apply Hleast. lia.
      * intros (Hr & Hacc & Hleast).
        assert (start_value <> s1) by (intros ->; by rewrite Hq in Hacc).
        split; [lia|]. split; [done|]. intros t Ht. apply Hleast. lia.
Qed.

Lemma _search_s1_None fuel start_value :
  _search_s1 self fuel start_value y0 = None <->
  forall t, start_value <= t < start_value + Z.of_nat fuel -> ~ accepted self y0 t.
Proof.
  unfold accepted, trial.
  revert start_value. induction fuel as [|fuel IH]; intros start_value.
  - simpl. split; [intros _ t Ht; lia | done].
  - cbn [_search_s1].
    destruct (self.(padding_oracle)
                ((_encrypt_int self start_value * y0) mod self.(n))) eqn:Hq.
    + split; [discriminate|]. intros Hall. exfalso.
      apply (Hall start_value); [lia | done].
    + rewrite IH. split.
      * intros Hall t Ht. destruct (decide (t = start_value)) as [->|Hne].
        -- by rewrite Hq.
        -- apply Hall. lia.
      * intros Hall t Ht. apply Hall. lia.
Qed.

(** The least accepted multiplier from [start_value] on, and the number
    of loop rounds (one oracle query each) that reach it. *)
Lemma _search_s1_finds start_value s :
  start_value <= s -> accepted self y0 s ->
  exists s1, start_value <= s1 <= s /\ accepted self y0 s1 /\
    (forall t, start_value <= t < s1 -> ~ accepted self y0 t) /\
    forall fuel, _search_s1 self fuel start_value y0 =
                 if decide (s1 - start_value < Z.of_nat fuel) then Some s1 else None.
Proof.
  intros Hle Hacc.
  destruct (_search_s1 self (Z.to_nat (s - start_value + 1)) start_value y0)
    as [s1|] eqn:Hrun.
  - apply _search_s1_Some in Hrun as (Hr & Hacc1 & Hleast).
    exists s1. split; [lia|]. split; [done|]. split; [done|].
    intros fuel. case_decide as Hf.
    + apply _search_s1_Some. split; [lia|]. done.
    + apply _search_s1_None. intros t Ht. apply Hleast. lia.
  - exfalso. rewrite _search_s1_None in Hrun. apply (Hrun s); [lia | done].
Qed.
End candidate_search.

(** C3.  If some multiplier [s >= start_value] has its trial ciphertext
    [(s^b mod n * y0) mod n] accepted by the oracle, [_search_s1] returns
    the smallest such multiplier [s1]: every [t] with
    [start_value <= t < s1] is rejected, and the loop, which tries
    [start_value], [start_value + 1], ... in turn, returns [s1] exactly
    when it is allowed more than [s1 - start_value] rounds.  (Python
    raises for a zero modulus or a negative exponent.) *)
Theorem search_s1_smallest {Y : Type} (self : attack Y) (start_value y0 s : Z) :
  self.(n) <> 0 -> 0 <= self.(b) ->
  start_value <= s ->
  self.(padding_oracle) (((s ^ self.(b)) mod self.(n) * y0) mod self.(n)) = true ->
  exists s1,
    start_value <= s1 <= s /\
    self.(padding_oracle) (((s1 ^ self.(b)) mod self.(n) * y0) mod self.(n)) = true /\
    (forall t, start_value <= t < s1 ->
       self.(padding_oracle) (((t ^ self.(b)) mod self.(n) * y0) mod self.(n)) = false) /\
    (forall fuel, (Z.to_nat (s1 - start_value) < fuel)%nat ->
       _search_s1 self fuel start_value y0 = Some s1) /\
    (forall fuel r, _search_s1 self fuel start_value y0 = Some r -> r = s1).
Proof.
  intros _ _ Hle Hacc.
  destruct (_search_s1_finds self y0 start_value s Hle Hacc)
    as (s1 & Hr & Hacc1 & Hleast & Hrun).
  exists s1. split; [done|]. split; [exact Hacc1|]. split; [|split].
  - intros t Ht. specialize (Hleast t Ht). unfold accepted, trial in Hleast.
    by apply not_true_is_false.
  - intros fuel Hf. rewrite Hrun. case_decide; [done | lia].
  - intros fuel r. rewrite Hrun. case_decide; congruence.
Qed.

(** ** Interval sets *)

Lemma _ceil_cdiv x y : y <> 0 -> _ceil x y = cdiv x y.
Proof.
  intros Hy. unfold _ceil, cdiv.
  destruct (Z.eqb_spec (x mod y) 0) as [Hz|Hnz]; simpl.
  - rewrite Z.div_opp_l_z by done. lia.
  - rewrite Z.div_opp_l_nz by done. lia.
Qed.

Lemma _floor_fdiv x y : _floor x y = fdiv x y.
Proof. reflexivity. Qed.

(** The accumulation [for r in ...: if newa <= newb: newM |= {(newa,newb)}]
    adds to [acc] the kept pairs of the ratios in [l]. *)
Lemma elem_of_fold_kept (f : Z -> Z * Z) (l : list Z) (acc : gset (Z * Z)) p :
  p ∈ foldl (fun newM r =>
               if decide ((f r).1 <= (f r).2) then newM ∪ {[ f r ]} else newM)
            acc l
  <-> p ∈ acc \/ exists r, r ∈ l /\ p = f r /\ p.1 <= p.2.
Proof.
  revert acc. induction l as [|r l IH]; intros acc; simpl.
  - split; [by left|]. intros [|(r & Hr & _)]; [done|]. by apply elem_of_nil in Hr.
  - rewrite IH. case_decide as Hk.
    + rewrite elem_of_union, elem_of_singleton. split.
      * intros [[?| ->]|(r' & Hr' & Hp)]; [by left| |].
        -- right. exists r. split; [left|done].
        -- right. exists r'. split; [by right|done].
      * intros [?|(r' & Hr' & -> & Hle)]; [by left; left|].
        apply elem_of_cons in Hr' as [->|Hr']; [by left; right|].
        right. exists r'. done.
    + split.
      * intros [?|(r' & Hr' & Hp)]; [by left|].
        right. exists r'. split; [by right|done].
      * intros [?|(r' & Hr' & -> & Hle)]; [by left|].
        apply elem_of_cons in Hr' as [->|Hr']; [done|].
        right. exists r'. done.
Qed.

Section intervals.
Context {Y : Type} (self : attack Y).

(** The pair [(newa, newb)] computed in the loop body for ratio [r]. *)
Lemma elem_of_calculate_intervals (s1 : Z) (p : Z * Z) :
  p ∈ _calculate_intervals self s1 <->
  exists r,
    _ceil (self.(B2) * s1 - self.(B3) + 1) self.(n) <= r
      <= _floor ((self.(B3) - 1) * s1 - self.(B2)) self.(n) /\
    p = (Z.max self.(B2) (_ceil (self.(B2) + r * self.(n)) s1),
         Z.min (self.(B3) - 1) (_floor (self.(B3) - 1 + r * self.(n)) s1)) /\
    p.1 <= p.2.
Proof.
  unfold _calculate_intervals.
  rewrite (elem_of_fold_kept
             (fun r => (Z.max self.(B2) (_ceil (self.(B2) + r * self.(n)) s1),
                        Z.min (self.(B3) - 1)
                              (_floor (self.(B3) - 1 + r * self.(n)) s1)))).
  setoid_rewrite elem_of_range. split.
  - intros [Hin|(r & Hr & Hp)]; [by apply not_elem_of_empty in Hin|].
    exists r. split; [lia | done].
  - intros (r & Hr & Hp). right. exists r. split; [lia | done].
Qed.

Lemma elem_of_narrow_list (si : Z) (l : list (Z * Z)) (p : Z * Z) :
  p ∈ narrow_list self si l <->
  exists a b r : Z,
    (a, b) ∈ l /\
    _ceil (a * si - self.(B3) + 1) self.(n) <= r
      <= _floor (b * si - self.(B2)) self.(n) /\
    p = (Z.max a (_ceil (self.(B2) + r * self.(n)) si),
         Z.min b (_floor (self.(B3) - 1 + r * self.(n)) si)) /\
    p.1 <= p.2.
Proof.
  unfold narrow_list.
  enough (forall acc : gset (Z * Z),
    p ∈ foldl (fun newM '(a, b) =>
                 foldl (fun newM r =>
                          let aa := _ceil (self.(B2) + r * self.(n)) si in
                          let bb := _floor (self.(B3) - 1 + r * self.(n)) si in
                          let newa := Z.max a aa in
                          let newb := Z.min b bb in
                          if decide (newa <= newb) then newM ∪ {[ (newa, newb) ]}
                          else newM)
                       newM
                       (range (_ceil (a * si - self.(B3) + 1) self.(n))
                              (_floor (b * si - self.(B2)) self.(n) + 1)))
              acc l
    <-> p ∈ acc \/
        exists a b r : Z,
          (a, b) ∈ l /\
          _ceil (a * si - self.(B3) + 1) self.(n) <= r
            <= _floor (b * si - self.(B2)) self.(n) /\
          p = (Z.max a (_ceil (self.(B2) + r * self.(n)) si),
               Z.min b (_floor (self.(B3) - 1 + r * self.(n)) si)) /\
          p.1 <= p.2) as Hgen.
  { rewrite Hgen. split; [|by right].
    intros [Hin|?]; [by apply not_elem_of_empty in Hin | done]. }
  induction l as [|[a b] l IH]; intros acc; simpl.
  - split; [by left|]. intros [|(a & b & r & Hin & _)]; [done|].
    by apply elem_of_nil in Hin.
  - rewrite IH.
    rewrite (elem_of_fold_kept
               (fun r => (Z.max a (_ceil (self.(B2) + r * self.(n)) si),
                          Z.min b (_floor (self.(B3) - 1 + r * self.(n)) si)))).
    setoid_rewrite elem_of_range. split.
    + intros [[?|(r & Hr & Hp)]|(a' & b' & r & Hin & Hrest)]; [by left| |].
      * right. exists a, b, r. split; [left|]. split; [lia | done].
      * right. exists a', b', r. split; [by right | done].
    + intros [?|(a' & b' & r & Hin & Hr & Hp)]; [by left; left|].
      apply elem_of_cons in Hin as [[= -> ->]|Hin].
      * left; right. exists r. split; [lia | done].
      * right. exists a', b', r. done.
Qed.

Lemma elem_of_narrow_intervals (si : Z) (M : gset (Z * Z)) (p : Z * Z) :
  p ∈ _narrow_intervals self si M <->
  exists a b r : Z,
    (a, b) ∈ M /\
    _ceil (a * si - self.(B3) + 1) self.(n) <= r
      <= _floor (b * si - self.(B2)) self.(n) /\
    p = (Z.max a (_ceil (self.(B2) + r * self.(n)) si),
         Z.min b (_floor (self.(B3) - 1 + r * self.(n)) si)) /\
    p.1 <= p.2.
Proof.
  unfold _narrow_intervals. rewrite elem_of_narrow_list.
  by setoid_rewrite elem_of_elements.
Qed.
End intervals.


Lemma elem_of_narrow_one {Y : Type} (self : attack Y) (si : Z) (ab p : Z * Z) :
  p ∈ narrow_one self si ab <->
  exists r : Z,
    cdiv (ab.1 * si - self.(B3) + 1) self.(n) <= r
      <= fdiv (ab.2 * si - self.(B2)) self.(n) /\
    p = narrowed_pair self si ab r /\ p.1 <= p.2.
Proof.
  unfold narrow_one. cbv zeta.
  rewrite elem_of_list_to_set, list_elem_of_filter, list_elem_of_fmap.
  setoid_rewrite elem_of_seqZ. split.
  - intros (Hle & r & -> & Hr). exists r. split; [lia | done].
  - intros (r & Hr & -> & Hle). split; [done|]. exists r. split; [done | lia].
Qed.

(** C4.  For every multiplier [si] and interval set [M], the set returned
    by [_narrow_intervals] is the one the specification describes: every
    interval [(a,b)] of [M] is processed, [r] runs over
    [ceil((a*si - B3 + 1)/n) .. floor((b*si - B2)/n)], the pair
    [(max a (ceil((B2 + r*n)/si)), min b (floor((B3-1 + r*n)/si)))] is kept
    exactly when its first component does not exceed its second, and the
    result is the union of the kept pairs over all source intervals.
    (Python raises [ZeroDivisionError] when [si] or [n] is zero.) *)
Theorem narrow_intervals_refines {Y : Type} (self : attack Y)
  (si : Z) (M : gset (Z * Z)) :
  si <> 0 -> self.(n) <> 0 ->
  _narrow_intervals self si M = narrow_spec self si M /\
  forall p : Z * Z,
    p ∈ _narrow_intervals self si M <->
    exists a b r : Z,
      (a, b) ∈ M /\
      cdiv (a * si - self.(B3) + 1) self.(n) <= r
        <= fdiv (b * si - self.(B2)) self.(n) /\
      p = (Z.max a (cdiv (self.(B2) + r * self.(n)) si),
           Z.min b (fdiv (self.(B3) - 1 + r * self.(n)) si)) /\
      p.1 <= p.2.
Proof.
  intros Hsi Hn.
  assert (Hmem : forall p : Z * Z,
    p ∈ _narrow_intervals self si M <->
    exists a b r : Z,
      (a, b) ∈ M /\
      cdiv (a * si - self.(B3) + 1) self.(n) <= r
        <= fdiv (b * si - self.(B2)) self.(n) /\
      p = (Z.max a (cdiv (self.(B2) + r * self.(n)) si),
           Z.min b (fdiv (self.(B3) - 1 + r * self.(n)) si)) /\
      p.1 <= p.2).
  { intros p. rewrite elem_of_narrow_intervals.
    split; intros (a & b0 & r & Hin & Hr & Hp & Hle); exists a, b0, r.
    - rewrite !_ceil_cdiv, !_floor_fdiv in * by done. done.
    - rewrite !_ceil_cdiv, !_floor_fdiv by done. done. }
  split; [|exact Hmem].
  apply set_eq. intros p. rewrite Hmem. unfold narrow_spec.
  rewrite elem_of_set_bind. setoid_rewrite elem_of_narrow_one. split.
  - intros (a & b0 & r & Hin & Hr & Hp & Hle).
    exists (a, b0). split; [done|]. exists r. done.
  - intros ([a b0] & Hin & r & Hr & Hp & Hle). exists a, b0, r. done.
Qed.

(** C6.  For a modulus [n > 0], a positive multiplier [si] and any [m0]
    with [(si * m0) mod n] in [[B2, B3-1]], narrowing the singleton set
    [{(m0, m0)}] with [si] gives back [{(m0, m0)}]. *)
Theorem narrow_point_idempotent {Y : Type} (self : attack Y) (m0 si : Z) :
  0 < self.(n) -> 0 < si ->
  self.(B2) <= (si * m0) mod self.(n) <= self.(B3) - 1 ->
  _narrow_intervals self si {[ (m0, m0) ]} = {[ (m0, m0) ]}.
Proof.
  intros Hn Hsi Hacc.
  pose proof (Z.div_mod (si * m0) self.(n) ltac:(lia)) as Hdm.
  set (q := (si * m0) / self.(n)) in *.
  set (x := (si * m0) mod self.(n)) in *.
  apply set_eq. intros p.
  rewrite elem_of_narrow_intervals, elem_of_singleton. split.
  - intros (a & b0 & r & Hin & Hr & -> & Hle).
    apply elem_of_singleton in Hin as [= -> ->]. simpl in Hle.
    f_equal; lia.
  - intros ->. exists m0, m0, q. split; [by apply elem_of_singleton|].
    assert (_ceil (m0 * si - self.(B3) + 1) self.(n) <= q) as H1
      by (apply _ceil_le_iff; [done | lia]).
    assert (q <= _floor (m0 * si - self.(B2)) self.(n)) as H2
      by (apply _floor_ge_iff; [done | lia]).
    assert (_ceil (self.(B2) + q * self.(n)) si <= m0) as H3
      by (apply _ceil_le_iff; [done | lia]).
    assert (m0 <= _floor (self.(B3) - 1 + q * self.(n)) si) as H4
      by (apply _floor_ge_iff; [done | lia]).
    split; [lia|]. split; [f_equal; lia | simpl; lia].
Qed.

(** C7.  Every pair [(a, b)] of the set built by [_calculate_intervals]
    satisfies [a <= b], [B2 <= a] and [b <= B3-1]; so does every pair of
    the set built by [_narrow_intervals] from a set whose intervals lie in
    [[B2, B3-1]], which is therefore again such a set; and both sets list
    each pair once. *)
Theorem intervals_invariant {Y : Type} (self : attack Y)
  (s1 si : Z) (M : gset (Z * Z)) :
  (forall a b0 : Z, (a, b0) ∈ M -> self.(B2) <= a /\ b0 <= self.(B3) - 1) ->
  (forall a b0 : Z, (a, b0) ∈ _calculate_intervals self s1 ->
     a <= b0 /\ self.(B2) <= a /\ b0 <= self.(B3) - 1) /\
  NoDup (elements (_calculate_intervals self s1)) /\
  (forall a b0 : Z, (a, b0) ∈ _narrow_intervals self si M ->
     a <= b0 /\ self.(B2) <= a /\ b0 <= self.(B3) - 1) /\
  NoDup (elements (_narrow_intervals self si M)).
Proof.
  intros HM. split; [|split; [|split]].
  - intros a b0 (r & Hr & [= -> ->] & Hle)%elem_of_calculate_intervals.
    simpl in Hle. lia.
  - apply NoDup_elements.
  - intros a b0 (a' & b' & r & Hin & Hr & [= -> ->] & Hle)%elem_of_narrow_intervals.
    simpl in Hle. destruct (HM a' b' Hin). lia.
  - apply NoDup_elements.
Qed.

(** ** Single-Interval Refiner *)

(** [find] over an increasing range returns the first accepted value. *)
Lemma find_seqZ_Some (f : Z -> bool) (len : nat) (lo s : Z) :
  find f (seqZ lo (Z.of_nat len)) = Some s <->
  lo <= s < lo + Z.of_nat len /\ f s = true /\
  forall t, lo <= t < s -> f t = false.
Proof.
  revert lo. induction len as [|len IH]; intros lo.
  - rewrite seqZ_nil by lia. simpl. split; [discriminate | lia].
  - rewrite seqZ_cons by lia. simpl.
    replace (Z.pred (Z.of_nat (S len))) with (Z.of_nat len) by lia.
    destruct (f lo) eqn:Hlo.
    + split.
      * intros [= <-]. split; [lia|]. split; [done|]. intros t Ht. lia.
      * intros (Hr & Hs & Hfirst). f_equal.
        destruct (decide (lo = s)) as [|Hne]; [done|].
        rewrite (Hfirst lo) in Hlo by lia. discriminate.
    + rewrite IH. split.
      * intros (Hr & Hs & Hfirst). split; [lia|]. split; [done|].
        intros t Ht. destruct (decide (t = lo)) as [->|Hne]; [done|].
        apply Hfirst. lia.
      * intros (Hr & Hs & Hfirst).
        assert (lo <> s) by (intros ->; congruence).
        split; [lia|]. split; [done|]. intros t Ht. apply Hfirst. lia.
Qed.

Lemma find_seqZ_None (f : Z -> bool) (len : nat) (lo : Z) :
  find f (seqZ lo (Z.of_nat len)) = None <->
  forall t, lo <= t < lo + Z.of_nat len -> f t = false.
Proof.
  revert lo. induction len as [|len IH]; intros lo.
  - rewrite seqZ_nil by lia. simpl. split; [intros _ t Ht; lia | done].
  - rewrite seqZ_cons by lia. simpl.
    replace (Z.pred (Z.of_nat (S len))) with (Z.of_nat len) by lia.
    destruct (f lo) eqn:Hlo.
    + split; [discriminate|]. intros Hall. rewrite Hall in Hlo by lia. discriminate.
    + rewrite IH. split.
      * intros Hall t Ht. destruct (decide (t = lo)) as [->|Hne]; [done|].
        apply Hall. lia.
      * intros Hall t Ht. apply Hall. lia.
Qed.

Lemma find_range_Some (f : Z -> bool) (lo hi s : Z) :
  find f (range lo hi) = Some s <->
  lo <= s < hi /\ f s = true /\ forall t, lo <= t < s -> f t = false.
Proof.
  unfold range. destruct (decide (0 <= hi - lo)) as [Hle|Hgt].
  - rewrite <- (Z2Nat.id (hi - lo)) at 1 by done. rewrite find_seqZ_Some.
    rewrite Z2Nat.id by done. split; intros (? & ? & ?); (split; [lia | done]).
  - rewrite seqZ_nil by lia. simpl. split; [discriminate | lia].
Qed.

Lemma find_range_None (f : Z -> bool) (lo hi : Z) :
  find f (range lo hi) = None <-> forall t, lo <= t < hi -> f t = false.
Proof.
  unfold range. destruct (decide (0 <= hi - lo)) as [Hle|Hgt].
  - rewrite <- (Z2Nat.id (hi - lo)) at 1 by done. rewrite find_seqZ_None.
    rewrite Z2Nat.id by done. split; intros Hall t Ht; apply Hall; lia.
  - rewrite seqZ_nil by lia. simpl. split; [intros _ t Ht; lia | done].
Qed.

Section single_interval_refiner.
Context (self : attack Z) (a b0 : Z).

Lemma _just_one_interval_loop_Some fuel r s :
  _just_one_interval_loop self fuel r a b0 = Some s <->
  exists r1, r <= r1 < r + Z.of_nat fuel /\ scanned self a b0 r1 s /\ oracle_on self s = true /\
    (forall t, scanned self a b0 r1 t -> t < s -> oracle_on self t = false) /\
    (forall r' t, r <= r' < r1 -> scanned self a b0 r' t -> oracle_on self t = false).
Proof.
  unfold scanned, oracle_on, trial.
  revert r. induction fuel as [|fuel IH]; intros r.
  - simpl. split; [discriminate|]. intros (r1 & Hr & _). lia.
  - cbn [_just_one_interval_loop].
    destruct (find _ _) as [s'|] eqn:Hfind.
    + apply find_range_Some in Hfind as (Hr & Hok & Hfirst). split.
      * intros [= <-]. exists r. split; [lia|]. split; [lia|]. split; [done|].
        split; [intros t Ht Hlt; apply Hfirst; lia | intros r' t Hr'; lia].
      * intros (r1 & Hr1 & Hs & Hoks & Hfirst1 & Hbefore). f_equal.
        destruct (decide (r1 = r)) as [->|Hne].
        -- destruct (Z.lt_trichotomy s' s) as [Hlt|[Heq|Hgt]]; [|done|].
           ++ rewrite (Hfirst1 s') in Hok by lia. discriminate.
           ++ rewrite (Hfirst s) in Hoks by lia. discriminate.
        -- rewrite (Hbefore r s') in Hok by lia. discriminate.
    + rewrite find_range_None in Hfind. rewrite IH. split.
      * intros (r1 & Hr1 & Hs & Hoks & Hfirst1 & Hbefore).
        exists r1. split; [lia|]. split; [done|]. split; [done|]. split; [done|].
        intros r' t Hr' Ht. destruct (decide (r' = r)) as [->|Hne].
        -- apply Hfind. lia.
        -- apply (Hbefore r'); [lia | done].
      * intros (r1 & Hr1 & Hs & Hoks & Hfirst1 & Hbefore).
        assert (r1 <> r) by (intros ->; rewrite Hfind in Hoks by lia; discriminate).
        exists r1. split; [lia|]. split; [done|]. split; [done|]. split; [done|].
        intros r' t Hr' Ht. apply (Hbefore r'); [lia | done].
Qed.

Lemma _just_one_interval_loop_None fuel r :
  _just_one_interval_loop self fuel r a b0 = None <->
  forall r' t, r <= r' < r + Z.of_nat fuel -> scanned self a b0 r' t -> oracle_on self t = false.
Proof.
  unfold scanned, oracle_on, trial.
  revert r. induction fuel as [|fuel IH]; intros r.
  - simpl. split; [intros _ r' t Hr'; lia | done].
  - cbn [_just_one_interval_loop].
    destruct (find _ _) as [s'|] eqn:Hfind.
    + apply find_range_Some in Hfind as (Hr & Hok & Hfirst).
      split; [discriminate|]. intros Hall.
      rewrite (Hall r s') in Hok by lia. discriminate.
    + rewrite find_range_None in Hfind. rewrite IH. split.
      * intros Hall r' t Hr' Ht. destruct (decide (r' = r)) as [->|Hne].
        -- apply Hfind. lia.
        -- apply (Hall r'); [lia | done].
      * intros Hall r' t Hr' Ht. apply (Hall r'); [lia | done].
Qed.

(** The first ratio from [r] on whose range holds an accepted multiplier,
    the first accepted multiplier of that range, and the rounds needed. *)
Lemma _just_one_interval_loop_finds r r2 s2 :
  r <= r2 -> scanned self a b0 r2 s2 -> oracle_on self s2 = true ->
  exists r1 s, r <= r1 <= r2 /\ scanned self a b0 r1 s /\ oracle_on self s = true /\
    (forall t, scanned self a b0 r1 t -> t < s -> oracle_on self t = false) /\
    (forall r' t, r <= r' < r1 -> scanned self a b0 r' t -> oracle_on self t = false) /\
    forall fuel, _just_one_interval_loop self fuel r a b0 =
                 if decide (r1 - r < Z.of_nat fuel) then Some s else None.
Proof.
  intros Hle Hs2 Hok2.
  destruct (_just_one_interval_loop self (Z.to_nat (r2 - r + 1)) r a b0)
    as [s|] eqn:Hrun.
  - apply _just_one_interval_loop_Some in Hrun
      as (r1 & Hr1 & Hs & Hok & Hfirst & Hbefore).
    exists r1, s. split; [lia|]. split; [done|]. split; [done|].
    split; [done|]. split; [done|].
    intros fuel. case_decide as Hf.
    + apply _just_one_interval_loop_Some. exists r1. split; [lia|]. done.
    + apply _just_one_interval_loop_None. intros r' t Hr' Ht.
      apply (Hbefore r'); [lia | done].
  - exfalso. rewrite _just_one_interval_loop_None in Hrun.
    rewrite (Hrun r2 s2) in Hok2 by (done || lia). discriminate.
Qed.
End single_interval_refiner.

(** C5.  With one interval [[a, b]] left, [_just_one_interval] starts
    from the ratio [r0 = ceil(2*(b*si - B2)/n)]; for each ratio [r] it scans
    the multipliers of [[ceil((B2 + r*n)/b), floor((B3-1 + r*n)/a)]] in
    increasing order and returns the first one whose trial ciphertext the
    oracle accepts; when the range holds none, it goes on with [r + 1].
    So if some ratio [r2 >= r0] has an accepted multiplier in its range,
    the call returns the first accepted multiplier [s] of the first such
    ratio [r1], after [r1 - r0 + 1] rounds.  (Python raises
    [ZeroDivisionError] when [n], [a] or [b] is zero, and for a negative
    exponent.) *)
Theorem just_one_interval_first (self : attack Z) (si a b0 r2 s2 : Z) :
  self.(n) <> 0 -> 0 <= self.(b) -> a <> 0 -> b0 <> 0 ->
  cdiv (2 * (b0 * si - self.(B2))) self.(n) <= r2 ->
  cdiv (self.(B2) + r2 * self.(n)) b0 <= s2
    <= fdiv (self.(B3) - 1 + r2 * self.(n)) a ->
  self.(padding_oracle) (trial self s2 self.(y0)) = true ->
  exists r1 s : Z,
    cdiv (2 * (b0 * si - self.(B2))) self.(n) <= r1 <= r2 /\
    cdiv (self.(B2) + r1 * self.(n)) b0 <= s
      <= fdiv (self.(B3) - 1 + r1 * self.(n)) a /\
    self.(padding_oracle) (trial self s self.(y0)) = true /\
    (forall t, cdiv (self.(B2) + r1 * self.(n)) b0 <= t < s ->
       self.(padding_oracle) (trial self t self.(y0)) = false) /\
    (forall r' t, cdiv (2 * (b0 * si - self.(B2))) self.(n) <= r' < r1 ->
       cdiv (self.(B2) + r' * self.(n)) b0 <= t
         <= fdiv (self.(B3) - 1 + r' * self.(n)) a ->
       self.(padding_oracle) (trial self t self.(y0)) = false) /\
    (forall fuel,
       (Z.to_nat (r1 - cdiv (2 * (b0 * si - self.(B2))) self.(n)) < fuel)%nat ->
       _just_one_interval self fuel si a b0 = Some s) /\
    (forall fuel res, _just_one_interval self fuel si a b0 = Some res -> res = s).
Proof.
  intros Hn _ Ha Hb Hr2 Hs2 Hok2.
  unfold _just_one_interval.
  replace ((b0 * si - self.(B2)) * 2) with (2 * (b0 * si - self.(B2))) by lia.
  rewrite _ceil_cdiv by done.
  set (r0 := cdiv (2 * (b0 * si - self.(B2))) self.(n)) in *.
  destruct (_just_one_interval_loop_finds self a b0 r0 r2 s2)
    as (r1 & s & Hr1 & Hs & Hok & Hfirst & Hbefore & Hrun).
  - done.
  - unfold scanned. by rewrite _ceil_cdiv, _floor_fdiv.
  - exact Hok2.
  - unfold scanned in Hs, Hfirst, Hbefore. unfold oracle_on in *.
    rewrite _ceil_cdiv, _floor_fdiv in Hs by done.
    exists r1, s. split; [done|]. split; [done|]. split; [done|].
    split; [|split; [|split]].
    + intros t Ht. apply Hfirst; [|lia].
      rewrite _ceil_cdiv, _floor_fdiv by done. lia.
    + intros r' t Hr' Ht. apply (Hbefore r'); [done|].
      by rewrite _ceil_cdiv, _floor_fdiv.
    + intros fuel Hf. rewrite Hrun. case_decide; [done | lia].
    + intros fuel res. rewrite Hrun. case_decide; congruence.
Qed.

(** ** The driver's first search when the ciphertext is already padded *)


Lemma s1_start_value_ge_2 {Y : Type} (self : attack Y) :
  0 < self.(B3) < self.(n) -> 2 <= s1_start_value self.
Proof.
  intros HB. unfold s1_start_value.
  destruct (decide (_ceil self.(n) self.(B3) <= 1)) as [Hle|]; [|lia].
  apply _ceil_le_iff in Hle; lia.
Qed.






(** ** Construction *)

(** C9 (as the code has it).  [__init__] validates nothing: for every
    [k >= 16] and every [n], [b], [y0] and oracle, consistent or not, it
    returns an instance that stores them unchanged together with
    [B = 2^(k-16)], [B2 = 2B], [B3 = 3B]. *)
Theorem init_never_fails {Y : Type} (k0 n0 b0 : Z) (y : Y) (oracle : Z -> bool) :
  16 <= k0 ->
  exists self : attack Y,
    __init__ k0 n0 b0 y oracle = Return self /\
    ~ fails (__init__ k0 n0 b0 y oracle) /\
    self.(k) = k0 /\ self.(n) = n0 /\ self.(b) = b0 /\ self.(y0) = y /\
    self.(padding_oracle) = oracle /\
    self.(B) = 2 ^ (k0 - 16) /\
    self.(B2) = 2 * 2 ^ (k0 - 16) /\
    self.(B3) = 3 * 2 ^ (k0 - 16).
Proof.
  intros _. eexists. split; [reflexivity|]. split.
  - intros [e He]. discriminate He.
  - repeat split.
Qed.

Lemma init_never_fails_witness :
  16 <= 24 /\
  exists self : attack (list Byte.byte),
    __init__ 24 key24.modulus 11 key24.ciphertext key24.oracle = Return self /\
    ~ fails (__init__ 24 key24.modulus 11 key24.ciphertext key24.oracle) /\
    self.(k) = 24 /\ self.(n) = key24.modulus /\ self.(b) = 11 /\
    self.(y0) = key24.ciphertext /\
    self.(padding_oracle) = key24.oracle /\
    self.(B) = 2 ^ (24 - 16) /\
    self.(B2) = 2 * 2 ^ (24 - 16) /\
    self.(B3) = 3 * 2 ^ (24 - 16).
Proof.
  split; [lia|].
  apply (init_never_fails 24 key24.modulus 11 key24.ciphertext key24.oracle); lia.
Defined.

(** C9, the claim at [k = 1024], [n = 15], [b = 1]: the parameters are
    inconsistent ([n] is not a 1024-bit number and [b <= 1]), and the
    construction succeeds all the same. *)
Lemma init_accepts_inconsistent_parameters :
  ~ consistent_parameters 1024 15 1 /\
  ~ fails (__init__ 1024 15 1 [Byte.x01] (fun _ => true)) /\
  exists self : attack (list Byte.byte),
    __init__ 1024 15 1 [Byte.x01] (fun _ => true) = Return self.
Proof.
  split; [|split].
  - intros [_ Hb]. lia.
  - intros [e He]. discriminate He.
  - eexists. reflexivity.
Qed.

Example init_key24 :
  __init__ 24 key24.modulus 11 key24.ciphertext key24.oracle = Return key24.self.
Proof. reflexivity. Qed.

(** ** The output of the driver *)

Example format_0256x_zero : format_0x 4 0 = "0000"%string.
Proof. reflexivity. Qed.
Example format_0x_wide : format_0x 2 767 = "2ff"%string.
Proof. reflexivity. Qed.
Example format_0x_negative : format_0x 5 (-255) = "-00ff"%string.
Proof. reflexivity. Qed.

Lemma length_append (s1 s2 : string) :
  String.length (s1 ++ s2) = (String.length s1 + String.length s2)%nat.
Proof. induction s1 as [|c s1 IH]; simpl; [done | by rewrite IH]. Qed.

Lemma length_zeros (c : nat) : String.length (zeros c) = c.
Proof. induction c as [|c IH]; simpl; [done | by rewrite IH]. Qed.

Lemma length_zfill (width : nat) (s : string) :
  String.length (zfill width s) = Nat.max width (String.length s).
Proof. unfold zfill. rewrite length_append, length_zeros. lia. Qed.

Lemma length_format_0256x (v : Z) : (256 <= String.length (format_0256x v))%nat.
Proof.
  unfold format_0256x, format_0x. destruct (v <? 0); simpl String.length.
  - rewrite length_zfill. lia.
  - rewrite length_zfill. lia.
Qed.

Lemma single_interval_loop_output (self : attack Z)
  (pop : gset (Z * Z) -> option (Z * Z)) (fuel fuel0 : nat) (s1 : Z)
  (elem : Z * Z) (newM : gset (Z * Z)) (out : string) :
  single_interval_loop self pop fuel fuel0 s1 elem newM = Return out ->
  exists v : Z, out = format_0256x v.
Proof.
  revert s1 elem newM. induction fuel as [|fuel IH]; intros s1 elem newM Hrun.
  - discriminate Hrun.
  - cbn [single_interval_loop] in Hrun.
    destruct (_just_one_interval self fuel0 s1 elem.1 elem.2) as [s|];
      [|discriminate Hrun].
    cbn in Hrun. unfold pop_add in Hrun.
    destruct (pop (_narrow_intervals self s newM)) as [elem'|];
      [|discriminate Hrun].
    cbn in Hrun. destruct (decide (elem'.1 = elem'.2)).
    + injection Hrun as <-. by eexists.
    + by eapply IH.
Qed.

Lemma run_attack_output (pop : gset (Z * Z) -> option (Z * Z)) (fuel : nat)
  (self : attack (list Byte.byte)) (out : string) :
  run_attack pop fuel self = Return out -> exists v : Z, out = format_0256x v.
Proof.
  unfold run_attack. intros Hrun.
  destruct (_bin2long self.(y0)) as [y| |]; [|discriminate Hrun..].
  cbn in Hrun.
  destruct (_search_s1 _ _ _ _) as [s1|]; [|discriminate Hrun].
  cbn in Hrun.
  destruct (multi_interval_loop _ _ _ _ _) as [[s newM]| |];
    [|discriminate Hrun..].
  cbn in Hrun. unfold pop_add in Hrun.
  destruct (pop newM) as [elem|]; [|discriminate Hrun].
  cbn in Hrun. by eapply single_interval_loop_output.
Qed.

(** C1 (where the code departs from it).  Whatever the key, the oracle and
    the ciphertext, a string returned by [run_attack] is ['%0256x' % v] for
    some [v] and so has at least 256 characters; for a key of at most 1020
    bits it is therefore never the [ceil(k/4)]-digit hexadecimal encoding
    of the plaintext block. *)
Theorem run_attack_width_fixed (pop : gset (Z * Z) -> option (Z * Z))
  (fuel : nat) (self : attack (list Byte.byte)) (out : string) :
  self.(k) <= 1020 ->
  run_attack pop fuel self = Return out ->
  (exists v : Z, out = format_0256x v) /\
  (256 <= String.length out)%nat /\
  Z.of_nat (String.length out) <> hex_width self.(k).
Proof.
  intros Hk Hrun. destruct (run_attack_output pop fuel self out Hrun) as [v ->].
  pose proof (length_format_0256x v) as Hlen.
  split; [by eexists|]. split; [done|].
  unfold hex_width, cdiv.
  assert (- self.(k) / 4 >= -255) by (apply Z.le_ge, Z.div_le_lower_bound; lia).
  lia.
Qed.

(** C2 (where the code departs from it).  On the 24-bit key the interval
    set collapses to the point [[767, 767]] and [run_attack] returns 767 as
    ['%0256x' % 767]: 253 zeros followed by [2ff], 256 characters, not the
    [ceil(24/4) = 6] digits [0002ff]. *)
Theorem run_attack_key24_width :
  _calculate_intervals key24.self_long 19789 = {[ (767, 767) ]} /\
  run_attack key24.pop_first 100 key24.self
    = Return (zeros 253 ++ "2ff")%string /\
  String.length (zeros 253 ++ "2ff")%string = 256%nat /\
  hex_width key24.self.(k) = 6 /\
  format_0x 6 767 = "0002ff"%string.
Proof.
  split; [|split; [|split; [|split]]]; by vm_compute.
Qed.

Lemma run_attack_width_fixed_witness :
  key24.self.(k) <= 1020 /\
  run_attack key24.pop_first 100 key24.self = Return (zeros 253 ++ "2ff")%string /\
  (exists v : Z, (zeros 253 ++ "2ff")%string = format_0256x v) /\
  (256 <= String.length (zeros 253 ++ "2ff")%string)%nat /\
  Z.of_nat (String.length (zeros 253 ++ "2ff")%string) <> hex_width key24.self.(k).
Proof.
  split; [by vm_compute|]. split; [by vm_compute|].
  apply (run_attack_width_fixed key24.pop_first 100 key24.self); by vm_compute.
Defined.

(** ** The theorems at the 24-bit key *)

Lemma search_s1_smallest_witness :
  key24.self_long.(n) <> 0 /\ 0 <= key24.self_long.(b) /\ 19763 <= 19789 /\
  key24.self_long.(padding_oracle)
    (((19789 ^ key24.self_long.(b)) mod key24.self_long.(n) * 179671)
       mod key24.self_long.(n)) = true /\
  exists s1,
    19763 <= s1 <= 19789 /\
    key24.self_long.(padding_oracle)
      (((s1 ^ key24.self_long.(b)) mod key24.self_long.(n) * 179671)
         mod key24.self_long.(n)) = true /\
    (forall t, 19763 <= t < s1 ->
       key24.self_long.(padding_oracle)
         (((t ^ key24.self_long.(b)) mod key24.self_long.(n) * 179671)
            mod key24.self_long.(n)) = false) /\
    (forall fuel, (Z.to_nat (s1 - 19763) < fuel)%nat ->
       _search_s1 key24.self_long fuel 19763 179671 = Some s1) /\
    (forall fuel r, _search_s1 key24.self_long fuel 19763 179671 = Some r -> r = s1).
Proof.
  split; [by vm_compute|]. split; [by vm_compute|]. split; [lia|].
  split; [by vm_compute|].
  apply (search_s1_smallest key24.self_long 19763 179671 19789);
    by vm_compute.
Defined.

Lemma narrow_intervals_refines_witness :
  19789 <> 0 /\ key24.self_long.(n) <> 0 /\
  _narrow_intervals key24.self_long 19789 {[ (767, 767) ]}
    = narrow_spec key24.self_long 19789 {[ (767, 767) ]} /\
  forall p : Z * Z,
    p ∈ _narrow_intervals key24.self_long 19789 {[ (767, 767) ]} <->
    exists a b r : Z,
      (a, b) ∈ ({[ (767, 767) ]} : gset (Z * Z)) /\
      cdiv (a * 19789 - key24.self_long.(B3) + 1) key24.self_long.(n) <= r
        <= fdiv (b * 19789 - key24.self_long.(B2)) key24.self_long.(n) /\
      p = (Z.max a (cdiv (key24.self_long.(B2) + r * key24.self_long.(n)) 19789),
           Z.min b (fdiv (key24.self_long.(B3) - 1 + r * key24.self_long.(n)) 19789)) /\
      p.1 <= p.2.
Proof.
  split; [lia|]. split; [by vm_compute|].
  apply (narrow_intervals_refines key24.self_long 19789 {[ (767, 767) ]});
    [lia | by vm_compute].
Defined.

Lemma just_one_interval_first_witness :
  key24.self_long.(n) <> 0 /\ 0 <= key24.self_long.(b) /\ 767 <> 0 /\
  cdiv (2 * (767 * 19789 - key24.self_long.(B2))) key24.self_long.(n) <= 3 /\
  cdiv (key24.self_long.(B2) + 3 * key24.self_long.(n)) 767 <= 59365
    <= fdiv (key24.self_long.(B3) - 1 + 3 * key24.self_long.(n)) 767 /\
  key24.self_long.(padding_oracle)
    (trial key24.self_long 59365 key24.self_long.(y0)) = true /\
  exists r1 s : Z,
    cdiv (2 * (767 * 19789 - key24.self_long.(B2))) key24.self_long.(n) <= r1 <= 3 /\
    cdiv (key24.self_long.(B2) + r1 * key24.self_long.(n)) 767 <= s
      <= fdiv (key24.self_long.(B3) - 1 + r1 * key24.self_long.(n)) 767 /\
    key24.self_long.(padding_oracle)
      (trial key24.self_long s key24.self_long.(y0)) = true /\
    (forall t, cdiv (key24.self_long.(B2) + r1 * key24.self_long.(n)) 767 <= t < s ->
       key24.self_long.(padding_oracle)
         (trial key24.self_long t key24.self_long.(y0)) = false) /\
    (forall r' t,
       cdiv (2 * (767 * 19789 - key24.self_long.(B2))) key24.self_long.(n) <= r' < r1 ->
       cdiv (key24.self_long.(B2) + r' * key24.self_long.(n)) 767 <= t
         <= fdiv (key24.self_long.(B3) - 1 + r' * key24.self_long.(n)) 767 ->
       key24.self_long.(padding_oracle)
         (trial key24.self_long t key24.self_long.(y0)) = false) /\
    (forall fuel,
       (Z.to_nat (r1 - cdiv (2 * (767 * 19789 - key24.self_long.(B2)))
                            key24.self_long.(n)) < fuel)%nat ->
       _just_one_interval key24.self_long fuel 19789 767 767 = Some s) /\
    (forall fuel res,
       _just_one_interval key24.self_long fuel 19789 767 767 = Some res -> res = s).
Proof.
  split; [by vm_compute|]. split; [by vm_compute|]. split; [lia|].
  split; [by vm_compute|]. split; [by vm_compute|]. split; [by vm_compute|].
  apply (just_one_interval_first key24.self_long 19789 767 767 3 59365);
    by vm_compute.
Defined.

Lemma narrow_point_idempotent_witness :
  0 < key24.self_long.(n) /\ 0 < 59365 /\
  key24.self_long.(B2) <= (59365 * 767) mod key24.self_long.(n)
    <= key24.self_long.(B3) - 1 /\
  _narrow_intervals key24.self_long 59365 {[ (767, 767) ]} = {[ (767, 767) ]}.
Proof.
  split; [by vm_compute|]. split; [lia|]. split; [by vm_compute|].
  apply (narrow_point_idempotent key24.self_long 767 59365); by vm_compute.
Defined.

Lemma intervals_invariant_witness :
  (forall a b0 : Z, (a, b0) ∈ ({[ (767, 767) ]} : gset (Z * Z)) ->
     key24.self_long.(B2) <= a /\ b0 <= key24.self_long.(B3) - 1) /\
  (forall a b0 : Z, (a, b0) ∈ _calculate_intervals key24.self_long 19789 ->
     a <= b0 /\ key24.self_long.(B2) <= a /\ b0 <= key24.self_long.(B3) - 1) /\
  NoDup (elements (_calculate_intervals key24.self_long 19789)) /\
  (forall a b0 : Z,
     (a, b0) ∈ _narrow_intervals key24.self_long 59365 {[ (767, 767) ]} ->
     a <= b0 /\ key24.self_long.(B2) <= a /\ b0 <= key24.self_long.(B3) - 1) /\
  NoDup (elements (_narrow_intervals key24.self_long 59365 {[ (767, 767) ]})).
Proof.
  assert (forall a b0 : Z, (a, b0) ∈ ({[ (767, 767) ]} : gset (Z * Z)) ->
            key24.self_long.(B2) <= a /\ b0 <= key24.self_long.(B3) - 1) as HM.
  { intros a b0 [= -> ->]%elem_of_singleton. by vm_compute. }
  split; [exact HM|].
  exact (intervals_invariant key24.self_long 19789 59365 {[ (767, 767) ]} HM).
Defined.

(** * Further properties of the code *)

(** ** Decoding the ciphertext: [_bin2long] *)

Lemma _bin2long_eq (bin_data : list Byte.byte) :
  bin_data <> [] -> _bin2long bin_data = Return (big_endian bin_data).
Proof. destruct bin_data; [done | reflexivity]. Qed.

Lemma big_endian_foldl (l : list Byte.byte) (acc : Z) :
  foldl (fun acc c => acc * 256 + Z.of_N (Byte.to_N c)) acc l
  = acc * 256 ^ Z.of_nat (length l) + big_endian l.
Proof.
  unfold big_endian. revert acc. induction l as [|c l IH]; intros acc.
  - simpl. lia.
  - cbn [foldl length]. rewrite IH, (IH (0 * 256 + _)).
    rewrite Nat2Z.inj_succ, Z.pow_succ_r by lia. lia.
Qed.

Lemma big_endian_cons (c : Byte.byte) (l : list Byte.byte) :
  big_endian (c :: l)
  = Z.of_N (Byte.to_N c) * 256 ^ Z.of_nat (length l) + big_endian l.
Proof.
  unfold big_endian at 1. cbn [foldl]. rewrite big_endian_foldl. lia.
Qed.

Lemma byte_bounds (c : Byte.byte) : 0 <= Z.of_N (Byte.to_N c) <= 255.
Proof. pose proof (Byte.to_N_bounded c). lia. Qed.

Lemma big_endian_bounds (l : list Byte.byte) :
  0 <= big_endian l < 256 ^ Z.of_nat (length l).
Proof.
  induction l as [|c l IH].
  - by vm_compute.
  - rewrite big_endian_cons. cbn [length].
    rewrite Nat2Z.inj_succ, Z.pow_succ_r by lia.
    pose proof (byte_bounds c). nia.
Qed.

Lemma big_endian_app (xs ys : list Byte.byte) :
  big_endian (xs ++ ys)
  = big_endian xs * 256 ^ Z.of_nat (length ys) + big_endian ys.
Proof.
  unfold big_endian at 1. rewrite foldl_app.
  fold (big_endian xs). apply big_endian_foldl.
Qed.

Lemma big_endian_inj (l1 l2 : list Byte.byte) :
  length l1 = length l2 -> big_endian l1 = big_endian l2 -> l1 = l2.
Proof.
  revert l2. induction l1 as [|c1 l1 IH]; intros [|c2 l2] Hlen Hval;
    try discriminate Hlen; [done|].
  injection Hlen as Hlen. rewrite !big_endian_cons, Hlen in Hval.
  pose proof (big_endian_bounds l1) as H1. rewrite Hlen in H1.
  pose proof (big_endian_bounds l2) as H2.
  pose proof (byte_bounds c1). pose proof (byte_bounds c2).
  assert (Z.of_N (Byte.to_N c1) = Z.of_N (Byte.to_N c2)) as Hc by nia.
  assert (big_endian l1 = big_endian l2) as Hl by nia.
  f_equal; [|by apply IH].
  apply N2Z.inj in Hc.
  pose proof (Byte.of_to_N c1) as E1. rewrite Hc, Byte.of_to_N in E1.
  congruence.
Qed.

(** X1.  [_bin2long] raises [ValueError] on the empty string and on no
    other; on a string of [len >= 1] bytes it returns a number [v] with
    [0 <= v < 256^len]. *)
Theorem bin2long_range (bin_data : list Byte.byte) :
  (_bin2long bin_data = Raise ValueError <-> bin_data = []) /\
  (bin_data <> [] ->
   exists v : Z, _bin2long bin_data = Return v /\
                 0 <= v < 256 ^ Z.of_nat (length bin_data)).
Proof.
  split.
  - destruct bin_data; split; (done || discriminate).
  - intros Hne. exists (big_endian bin_data).
    split; [by apply _bin2long_eq | apply big_endian_bounds].
Qed.

(** X2.  [_bin2long] reads the bytes most significant first: decoding a
    concatenation shifts the value of the first part by the length of the
    second and adds the value of the second. *)
Theorem bin2long_app (xs ys : list Byte.byte) (vx vy : Z) :
  _bin2long xs = Return vx -> _bin2long ys = Return vy ->
  _bin2long (xs ++ ys) = Return (vx * 256 ^ Z.of_nat (length ys) + vy).
Proof.
  intros Hx Hy.
  assert (xs <> []) as Hxs by (intros ->; discriminate Hx).
  assert (ys <> []) as Hys by (intros ->; discriminate Hy).
  rewrite _bin2long_eq in Hx, Hy by done. injection Hx as <-. injection Hy as <-.
  rewrite _bin2long_eq by (destruct xs; done).
  by rewrite big_endian_app.
Qed.

Lemma bin2long_app_witness :
  _bin2long [Byte.x02] = Return 2 /\
  _bin2long [Byte.xbd; Byte.xd7] = Return 48599 /\
  _bin2long ([Byte.x02] ++ [Byte.xbd; Byte.xd7])
    = Return (2 * 256 ^ Z.of_nat (length [Byte.xbd; Byte.xd7]) + 48599).
Proof.
  split; [reflexivity|]. split; [reflexivity|].
  apply (bin2long_app [Byte.x02] [Byte.xbd; Byte.xd7] 2 48599); reflexivity.
Defined.

(** X3.  Two ciphertexts of the same length that [_bin2long] decodes to
    the same number are the same byte string. *)
Theorem bin2long_inj (l1 l2 : list Byte.byte) (v : Z) :
  length l1 = length l2 ->
  _bin2long l1 = Return v -> _bin2long l2 = Return v -> l1 = l2.
Proof.
  intros Hlen H1 H2.
  assert (l1 <> []) as Hn1 by (intros ->; discriminate H1).
  assert (l2 <> []) as Hn2 by (intros ->; discriminate H2).
  rewrite _bin2long_eq in H1, H2 by done.
  apply big_endian_inj; congruence.
Qed.

Lemma bin2long_inj_witness :
  length key24.ciphertext = length [Byte.x02; Byte.xbd; Byte.xd7] /\
  _bin2long key24.ciphertext = Return 179671 /\
  _bin2long [Byte.x02; Byte.xbd; Byte.xd7] = Return 179671 /\
  key24.ciphertext = [Byte.x02; Byte.xbd; Byte.xd7].
Proof.
  split; [reflexivity|]. split; [reflexivity|]. split; [reflexivity|].
  apply (bin2long_inj key24.ciphertext [Byte.x02; Byte.xbd; Byte.xd7] 179671);
    reflexivity.
Defined.

(** ** The trial ciphertext *)

(** X4.  The multiplicative property the attack rests on: for a target
    that encrypts [m], the trial ciphertext of multiplier [s] is the
    encryption of [s * m]. *)
Theorem trial_encrypts_product {Y : Type} (self : attack Y) (s m : Z) :
  self.(n) <> 0 -> 0 <= self.(b) ->
  trial self s (_encrypt_int self m) = _encrypt_int self (s * m).
Proof.
  intros Hn _. unfold trial, _encrypt_int, rsa_core.encrypt_int.
  rewrite Z.pow_mul_l. by rewrite <- Z.mul_mod.
Qed.

Lemma trial_encrypts_product_witness :
  key24.self_long.(n) <> 0 /\ 0 <= key24.self_long.(b) /\
  trial key24.self_long 19789 (_encrypt_int key24.self_long 767)
  = _encrypt_int key24.self_long (19789 * 767).
Proof.
  split; [by vm_compute|]. split; [by vm_compute|].
  apply (trial_encrypts_product key24.self_long 19789 767); by vm_compute.
Defined.

(** ** Failures of the driver *)

Lemma multi_interval_loop_no_raise (self : attack Z) (fuel fuel0 : nat)
  (s1 : Z) (newM : gset (Z * Z)) (e : exn) :
  multi_interval_loop self fuel fuel0 s1 newM <> Raise e.
Proof.
  revert s1 newM. induction fuel as [|fuel IH]; intros s1 newM;
    cbn [multi_interval_loop]; case_decide; try done.
  destruct (_search_s1 self fuel0 (s1 + 1) self.(y0)) as [s|]; cbn; [|done].
  apply IH.
Qed.

Lemma single_interval_loop_raise (self : attack Z)
  (pop : gset (Z * Z) -> option (Z * Z)) (fuel fuel0 : nat) (s1 : Z)
  (elem : Z * Z) (newM : gset (Z * Z)) (e : exn) :
  single_interval_loop self pop fuel fuel0 s1 elem newM = Raise e ->
  e = KeyError.
Proof.
  revert s1 elem newM. induction fuel as [|fuel IH]; intros s1 elem newM Hrun.
  - discriminate Hrun.
  - cbn [single_interval_loop] in Hrun.
    destruct (_just_one_interval self fuel0 s1 elem.1 elem.2) as [s|];
      [|discriminate Hrun].
    cbn in Hrun. unfold pop_add in Hrun.
    destruct (pop (_narrow_intervals self s newM)) as [elem'|]; cbn in Hrun.
    + destruct (decide (elem'.1 = elem'.2)); [discriminate Hrun | by eapply IH].
    + by injection Hrun as <-.
Qed.

(** X5.  [run_attack] raises [ValueError] exactly when the ciphertext is
    the empty string, and then whatever the oracle and the key are: the
    decoding comes before any search. *)
Theorem run_attack_ValueError (pop : gset (Z * Z) -> option (Z * Z))
  (fuel : nat) (self : attack (list Byte.byte)) :
  run_attack pop fuel self = Raise ValueError <-> self.(y0) = [].
Proof.
  unfold run_attack. split.
  - intros Hrun. destruct self.(y0) as [|c l] eqn:Hy; [done|]. exfalso.
    cbn in Hrun.
    destruct (_search_s1 _ _ _ _) as [s1|]; [|discriminate Hrun].
    cbn in Hrun.
    destruct (multi_interval_loop _ _ _ _ _) as [[s newM]|e|] eqn:Hloop;
      [| by apply multi_interval_loop_no_raise in Hloop | discriminate Hrun].
    cbn in Hrun. unfold pop_add in Hrun.
    destruct (pop newM) as [elem|]; [|discriminate Hrun].
    cbn in Hrun. apply single_interval_loop_raise in Hrun. discriminate Hrun.
  - intros ->. reflexivity.
Qed.

(** ** The output string *)

Lemma parse_hex_zeros (c : nat) (s : string) :
  parse_hex (zeros c ++ s) = parse_hex s.
Proof.
  induction c as [|c IH]; [done|].
  rewrite <- IH. unfold parse_hex. cbn [zeros].
  change (String "0" (zeros c) ++ s)%string
    with (String "0" (zeros c ++ s))%string.
  cbn [NilEmpty.uint_of_string].
  by destruct (NilEmpty.uint_of_string (zeros c ++ s)) as [d|].
Qed.

Lemma parse_hex_hex (v : N) : parse_hex (hex v) = Some v.
Proof.
  unfold parse_hex, hex.
  rewrite <- (HexadecimalN.Unsigned.of_to v) at 2.
  destruct (N.to_hex_uint v) as [|d|d|d|d|d|d|d|d|d|d|d|d|d|d|d|d] eqn:E;
    try (unfold NilZero.string_of_uint; rewrite NilEmpty.usu; reflexivity).
  reflexivity.
Qed.

(** X6.  The string ['%0256x' % v] of a non-negative [v] is a hexadecimal
    numeral of [v]: read back digit by digit it gives [v] again, whatever
    the padding. *)
Theorem format_0256x_parse (v : Z) :
  0 <= v -> parse_hex (format_0256x v) = Some (Z.to_N v).
Proof.
  intros Hv. unfold format_0256x, format_0x.
  destruct (Z.ltb_spec v 0) as [|_]; [lia|].
  unfold zfill. rewrite parse_hex_zeros, parse_hex_hex.
  f_equal. destruct v; (done || lia).
Qed.

Lemma format_0256x_parse_witness :
  0 <= 767 /\ parse_hex (format_0256x 767) = Some (Z.to_N 767).
Proof. split; [lia | apply (format_0256x_parse 767); lia]. Defined.

(** ** What the interval sets cover *)

Section coverage.
Context {Y : Type} (self : attack Y).

(** The candidate pair for ratio [r] brackets exactly the [v] with
    [B2 + r*n <= v*si <= B3-1 + r*n]. *)
Lemma bracket_iff (si r v : Z) :
  0 < si ->
  _ceil (self.(B2) + r * self.(n)) si <= v
    <= _floor (self.(B3) - 1 + r * self.(n)) si
  <-> self.(B2) + r * self.(n) <= v * si <= self.(B3) - 1 + r * self.(n).
Proof.
  intros Hsi. rewrite (_ceil_le_iff _ si v Hsi), (_floor_ge_iff _ si v Hsi).
  done.
Qed.

Lemma covers_narrow_intro (si : Z) (M : gset (Z * Z)) (v : Z) :
  0 < self.(n) -> 0 < si ->
  covers M v -> consistent self v si ->
  covers (_narrow_intervals self si M) v.
Proof.
  intros Hn Hsi (a & b0 & Hin & Hv) Hcons. unfold consistent in Hcons.
  pose proof (Z.div_mod (v * si) self.(n) ltac:(lia)) as Hdm.
  set (q := (v * si) / self.(n)) in *.
  set (x := (v * si) mod self.(n)) in *.
  assert (self.(B2) + q * self.(n) <= v * si <= self.(B3) - 1 + q * self.(n))
    as Hw by lia.
  apply bracket_iff in Hw; [|done].
  exists (Z.max a (_ceil (self.(B2) + q * self.(n)) si)),
         (Z.min b0 (_floor (self.(B3) - 1 + q * self.(n)) si)).
  split; [|lia].
  apply elem_of_narrow_intervals. exists a, b0, q. split; [done|].
  split; [|split; [done | simpl; lia]].
  split.
  - apply _ceil_le_iff; [done | nia].
  - apply _floor_ge_iff; [done | nia].
Qed.

Lemma covers_narrow_elim (si : Z) (M : gset (Z * Z)) (v : Z) :
  0 < si -> 0 <= self.(B2) -> self.(B3) - 1 < self.(n) ->
  covers (_narrow_intervals self si M) v ->
  covers M v /\ consistent self v si.
Proof.
  intros Hsi HB2 HB3 (a' & b' & Hin & Hv).
  apply elem_of_narrow_intervals in Hin
    as (a & b0 & r & Hin & Hr & [= -> ->] & Hle).
  split; [exists a, b0; split; [done | lia]|].
  assert (self.(B2) + r * self.(n) <= v * si <= self.(B3) - 1 + r * self.(n))
    as Hw by (apply bracket_iff; [done | lia]).
  unfold consistent.
  rewrite <- (Z.mod_unique_pos (v * si) self.(n) r (v * si - r * self.(n)));
    lia.
Qed.

Lemma _calculate_intervals_narrow (s1 : Z) :
  _calculate_intervals self s1
  = _narrow_intervals self s1 {[ (self.(B2), self.(B3) - 1) ]}.
Proof.
  apply set_eq. intros p.
  rewrite elem_of_calculate_intervals, elem_of_narrow_intervals. split.
  - intros (r & Hr & Hp & Hle). exists self.(B2), (self.(B3) - 1), r.
    split; [by apply elem_of_singleton | done].
  - intros (a & b0 & r & [= -> ->]%elem_of_singleton & Hr & Hp & Hle).
    exists r. done.
Qed.

Lemma narrow_within (si : Z) (M : gset (Z * Z)) (a' b' : Z) :
  (a', b') ∈ _narrow_intervals self si M ->
  exists a b0 : Z, (a, b0) ∈ M /\ a <= a' /\ a' <= b' /\ b' <= b0.
Proof.
  intros (a & b0 & r & Hin & Hr & [= -> ->] & Hle)%elem_of_narrow_intervals.
  simpl in Hle. exists a, b0. split; [done | lia].
Qed.

Lemma narrow_points (si : Z) (M : gset (Z * Z)) (a' b' : Z) :
  0 < si -> self.(B3) - self.(B2) <= si ->
  (a', b') ∈ _narrow_intervals self si M -> a' = b'.
Proof.
  intros Hsi Hbig
    (a & b0 & r & Hin & Hr & [= -> ->] & Hle)%elem_of_narrow_intervals.
  simpl in Hle.
  pose proof (_ceil_bounds (self.(B2) + r * self.(n)) si Hsi) as Hc.
  pose proof (_floor_bounds (self.(B3) - 1 + r * self.(n)) si Hsi) as Hf.
  assert (_floor (self.(B3) - 1 + r * self.(n)) si
            <= _ceil (self.(B2) + r * self.(n)) si) by nia.
  lia.
Qed.

Lemma narrow_twice (si : Z) (M : gset (Z * Z)) :
  0 < self.(n) -> 0 < si -> self.(B3) - 1 - self.(B2) < self.(n) ->
  _narrow_intervals self si (_narrow_intervals self si M)
  = _narrow_intervals self si M.
Proof.
  intros Hn Hsi Hwin. apply set_eq. intros p. split.
  - intros (a' & b' & r' & Hin' & Hr' & -> & Hle')%elem_of_narrow_intervals.
    pose proof Hin' as Hkeep.
    apply elem_of_narrow_intervals in Hin'
      as (a & b0 & r & Hin & Hr & [= -> ->] & Hle).
    simpl in Hle, Hle'.
    pose proof (_ceil_bounds (self.(B2) + r * self.(n)) si Hsi) as Hc.
    pose proof (_floor_bounds (self.(B3) - 1 + r * self.(n)) si Hsi) as Hf.
    pose proof (_ceil_bounds (self.(B2) + r' * self.(n)) si Hsi) as Hc'.
    pose proof (_floor_bounds (self.(B3) - 1 + r' * self.(n)) si Hsi) as Hf'.
    assert (r' = r) as -> by nia.
    replace (Z.max _ _, Z.min _ _)
      with (Z.max a (_ceil (self.(B2) + r * self.(n)) si),
            Z.min b0 (_floor (self.(B3) - 1 + r * self.(n)) si))
      by (f_equal; lia).
    exact Hkeep.
  - intros Hp. destruct p as [a' b'].
    pose proof Hp as Hkeep.
    apply elem_of_narrow_intervals in Hp
      as (a & b0 & r & Hin & Hr & [= -> ->] & Hle).
    simpl in Hle.
    apply elem_of_narrow_intervals.
    eexists _, _, r. split; [exact Hkeep|].
    pose proof (_ceil_bounds (self.(B2) + r * self.(n)) si Hsi) as Hc.
    pose proof (_floor_bounds (self.(B3) - 1 + r * self.(n)) si Hsi) as Hf.
    split; [|split; [f_equal; lia | simpl; lia]].
    split.
    + apply _ceil_le_iff; [done | nia].
    + apply _floor_ge_iff; [done | nia].
Qed.
End coverage.

Lemma calculate_covers_exactly_aux {Y : Type} (self : attack Y) (s1 v : Z) :
  0 < s1 -> 0 <= self.(B2) -> self.(B3) - 1 < self.(n) ->
  covers (_calculate_intervals self s1) v ->
  self.(B2) <= v <= self.(B3) - 1 /\
  self.(B2) <= (v * s1) mod self.(n) <= self.(B3) - 1.
Proof.
  intros Hs1 HB2 HB3. rewrite _calculate_intervals_narrow. intros Hc.
  apply covers_narrow_elim in Hc as [(a & b0 & Hin & Hv) Hcons]; try done.
  apply elem_of_singleton in Hin as [= -> ->]. done.
Qed.

(** X7.  The Interval Calculator is the Interval Narrower applied to the
    single interval [[B2, B3-1]]. *)
Theorem calculate_intervals_is_narrowing {Y : Type} (self : attack Y) (s1 : Z) :
  _calculate_intervals self s1
  = _narrow_intervals self s1 {[ (self.(B2), self.(B3) - 1) ]}.
Proof. apply _calculate_intervals_narrow. Qed.

(** X8.  Narrowing keeps exactly the consistent candidates: for a positive
    multiplier [si] and [0 <= B2], [B3 - 1 < n], a value [v] lies in an
    interval of [_narrow_intervals si M] if and only if it lies in an
    interval of [M] and [(v * si) mod n] is in [[B2, B3-1]].  In particular
    the true plaintext is never dropped by an accepted multiplier, and the
    new set is empty only when no candidate is consistent. *)
Theorem narrow_covers_exactly {Y : Type} (self : attack Y)
  (si : Z) (M : gset (Z * Z)) (v : Z) :
  0 < si -> 0 <= self.(B2) -> self.(B3) - 1 < self.(n) -> 0 < self.(n) ->
  covers (_narrow_intervals self si M) v <->
  covers M v /\ self.(B2) <= (v * si) mod self.(n) <= self.(B3) - 1.
Proof.
  intros Hsi HB2 HB3 Hn. split.
  - by apply covers_narrow_elim.
  - intros [Hc Hv]. by apply covers_narrow_intro.
Qed.

Lemma narrow_covers_exactly_witness :
  0 < 19789 /\ 0 <= key24.self_long.(B2) /\
  key24.self_long.(B3) - 1 < key24.self_long.(n) /\ 0 < key24.self_long.(n) /\
  (covers (_narrow_intervals key24.self_long 19789 {[ (512, 767) ]}) 767 <->
   covers {[ (512, 767) ]} 767 /\
   key24.self_long.(B2) <= (767 * 19789) mod key24.self_long.(n)
     <= key24.self_long.(B3) - 1).
Proof.
  split; [lia|]. split; [by vm_compute|]. split; [by vm_compute|].
  split; [by vm_compute|].
  apply (narrow_covers_exactly key24.self_long 19789 {[ (512, 767) ]} 767);
    by vm_compute.
Defined.

(** X9.  The Interval Calculator covers exactly the candidates of
    [[B2, B3-1]] that are consistent with the first multiplier: for
    [s1 > 0], [0 <= B2] and [B3 - 1 < n], a value [v] lies in an interval of
    [_calculate_intervals s1] if and only if [B2 <= v <= B3-1] and
    [(v * s1) mod n] is in [[B2, B3-1]]. *)
Theorem calculate_covers_exactly {Y : Type} (self : attack Y) (s1 v : Z) :
  0 < s1 -> 0 <= self.(B2) -> self.(B3) - 1 < self.(n) -> 0 < self.(n) ->
  covers (_calculate_intervals self s1) v <->
  self.(B2) <= v <= self.(B3) - 1 /\
  self.(B2) <= (v * s1) mod self.(n) <= self.(B3) - 1.
Proof.
  intros Hs1 HB2 HB3 Hn. rewrite _calculate_intervals_narrow.
  assert (covers {[ (self.(B2), self.(B3) - 1) ]} v
          <-> self.(B2) <= v <= self.(B3) - 1) as Hfull.
  { split.
    - by intros (a & b0 & [= -> ->]%elem_of_singleton & Hv).
    - intros Hv. exists self.(B2), (self.(B3) - 1).
      split; [by apply elem_of_singleton | done]. }
  rewrite <- Hfull. split.
  - by apply covers_narrow_elim.
  - intros [Hc Hv]. by apply covers_narrow_intro.
Qed.

Lemma calculate_covers_exactly_witness :
  0 < 19789 /\ 0 <= key24.self_long.(B2) /\
  key24.self_long.(B3) - 1 < key24.self_long.(n) /\ 0 < key24.self_long.(n) /\
  (covers (_calculate_intervals key24.self_long 19789) 767 <->
   key24.self_long.(B2) <= 767 <= key24.self_long.(B3) - 1 /\
   key24.self_long.(B2) <= (767 * 19789) mod key24.self_long.(n)
     <= key24.self_long.(B3) - 1).
Proof.
  split; [lia|]. split; [by vm_compute|]. split; [by vm_compute|].
  split; [by vm_compute|].
  apply (calculate_covers_exactly key24.self_long 19789 767); by vm_compute.
Defined.

(** X10.  Narrowing never widens: every interval of
    [_narrow_intervals si M] is non-empty and lies inside an interval of
    [M], whatever the multiplier. *)
Theorem narrow_never_widens {Y : Type} (self : attack Y)
  (si : Z) (M : gset (Z * Z)) (a' b' : Z) :
  (a', b') ∈ _narrow_intervals self si M ->
  exists a b0 : Z, (a, b0) ∈ M /\ a <= a' /\ a' <= b' /\ b' <= b0.
Proof. apply narrow_within. Qed.

Lemma narrow_never_widens_witness :
  (767, 767) ∈ _narrow_intervals key24.self_long 19789 {[ (512, 767) ]} /\
  exists a b0 : Z,
    (a, b0) ∈ ({[ (512, 767) ]} : gset (Z * Z)) /\
    a <= 767 /\ 767 <= 767 /\ 767 <= b0.
Proof.
  assert ((767, 767) ∈ _narrow_intervals key24.self_long 19789 {[ (512, 767) ]})
    as Hin by (by vm_compute).
  split; [exact Hin|].
  exact (narrow_never_widens key24.self_long 19789 {[ (512, 767) ]} 767 767 Hin).
Defined.

(** X11.  Once the multiplier reaches [B3 - B2] (that is [B]), every
    interval that narrowing produces is a single point. *)
Theorem narrow_gives_points {Y : Type} (self : attack Y)
  (si : Z) (M : gset (Z * Z)) (a' b' : Z) :
  0 < si -> self.(B3) - self.(B2) <= si ->
  (a', b') ∈ _narrow_intervals self si M -> a' = b'.
Proof. apply narrow_points. Qed.

Lemma narrow_gives_points_witness :
  0 < 19789 /\ key24.self_long.(B3) - key24.self_long.(B2) <= 19789 /\
  (767, 767) ∈ _narrow_intervals key24.self_long 19789 {[ (512, 767) ]} /\
  767 = 767.
Proof.
  split; [lia|]. split; [by vm_compute|].
  assert ((767, 767) ∈ _narrow_intervals key24.self_long 19789 {[ (512, 767) ]})
    as Hin by (by vm_compute).
  split; [exact Hin|].
  apply (narrow_gives_points key24.self_long 19789 {[ (512, 767) ]} 767 767);
    [lia | by vm_compute | exact Hin].
Defined.

(** X12.  Narrowing twice with the same multiplier is narrowing once (for
    [n > 0], [si > 0] and [B3 - 1 - B2 < n]); so the first statement of the
    driver's [while len(newM) > 1] loop, which narrows the freshly
    calculated set with the multiplier it was calculated from, leaves that
    set as it is. *)
Theorem narrow_same_multiplier_twice {Y : Type} (self : attack Y)
  (si : Z) (M : gset (Z * Z)) :
  0 < self.(n) -> 0 < si -> self.(B3) - 1 - self.(B2) < self.(n) ->
  _narrow_intervals self si (_narrow_intervals self si M)
    = _narrow_intervals self si M /\
  _narrow_intervals self si (_calculate_intervals self si)
    = _calculate_intervals self si.
Proof.
  intros Hn Hsi Hwin. split.
  - by apply narrow_twice.
  - rewrite _calculate_intervals_narrow. by apply narrow_twice.
Qed.

Lemma narrow_same_multiplier_twice_witness :
  0 < key24.self_long.(n) /\ 0 < 19789 /\
  key24.self_long.(B3) - 1 - key24.self_long.(B2) < key24.self_long.(n) /\
  _narrow_intervals key24.self_long 19789
    (_narrow_intervals key24.self_long 19789 {[ (512, 767) ]})
    = _narrow_intervals key24.self_long 19789 {[ (512, 767) ]} /\
  _narrow_intervals key24.self_long 19789
    (_calculate_intervals key24.self_long 19789)
    = _calculate_intervals key24.self_long 19789.
Proof.
  split; [by vm_compute|]. split; [lia|]. split; [by vm_compute|].
  apply (narrow_same_multiplier_twice key24.self_long 19789 {[ (512, 767) ]});
    by vm_compute.
Defined.

(** ** The multipliers of the driver *)

Lemma _just_one_interval_result (self : attack Z) (fuel : nat) (si a b0 s : Z) :
  _just_one_interval self fuel si a b0 = Some s ->
  accepted self self.(y0) s /\
  (0 < self.(n) -> 0 < b0 -> 2 * b0 * si - self.(B2) <= s * b0).
Proof.
  unfold _just_one_interval.
  intros Hrun. apply _just_one_interval_loop_Some in Hrun
    as (r1 & Hr1 & Hs & Hok & _).
  split; [exact Hok|]. intros Hn Hb.
  unfold scanned in Hs. destruct Hs as [Hlo _].
  apply _ceil_le_iff in Hlo; [|done].
  pose proof (_ceil_bounds ((b0 * si - self.(B2)) * 2) self.(n) Hn) as Hr0.
  nia.
Qed.

(** X13.  A multiplier returned by the Single-Interval Refiner is accepted
    by the oracle and roughly doubles the previous one: for [n > 0] and an
    upper bound [b >= B2 > 0], the result [s] satisfies [s >= 2*si - 1]. *)
Theorem just_one_interval_doubles (self : attack Z) (fuel : nat)
  (si a b0 s : Z) :
  0 < self.(n) -> 0 < self.(B2) -> self.(B2) <= b0 ->
  _just_one_interval self fuel si a b0 = Some s ->
  self.(padding_oracle) (trial self s self.(y0)) = true /\
  2 * si - 1 <= s.
Proof.
  intros Hn HB2 Hb Hrun.
  apply _just_one_interval_result in Hrun as [Hacc Hgrow].
  split; [exact Hacc|]. specialize (Hgrow Hn ltac:(lia)). nia.
Qed.

Lemma just_one_interval_doubles_witness :
  0 < key24.self_long.(n) /\ 0 < key24.self_long.(B2) /\
  key24.self_long.(B2) <= 767 /\
  _just_one_interval key24.self_long 1 19789 767 767 = Some 59365 /\
  key24.self_long.(padding_oracle)
    (trial key24.self_long 59365 key24.self_long.(y0)) = true /\
  2 * 19789 - 1 <= 59365.
Proof.
  split; [by vm_compute|]. split; [by vm_compute|]. split; [by vm_compute|].
  split; [by vm_compute|].
  apply (just_one_interval_doubles key24.self_long 1 19789 767 767 59365);
    by vm_compute.
Defined.

(** X14.  Starting the search at [ceil(n/B3)] skips no useful multiplier:
    for a plaintext [m0] in [[B2, B3-1]] (with [0 < B2] and [B3 <= 2*B2],
    as for [B2 = 2B], [B3 = 3B]) no multiplier [s] with
    [2 <= s < ceil(n/B3)] brings [(m0 * s) mod n] into [[B2, B3-1]]. *)
Theorem below_start_value_inconsistent {Y : Type} (self : attack Y) (m0 s : Z) :
  0 < self.(B2) -> self.(B3) <= 2 * self.(B2) ->
  self.(B2) <= m0 <= self.(B3) - 1 ->
  2 <= s < s1_start_value self ->
  ~ (self.(B2) <= (m0 * s) mod self.(n) <= self.(B3) - 1).
Proof.
  intros HB2 HB3 Hm Hs Hcons. unfold s1_start_value in Hs.
  assert (~ self.(n) <= s * self.(B3)) as Hlt.
  { intros Hle. apply (_ceil_le_iff _ self.(B3) s) in Hle; lia. }
  rewrite Z.mod_small in Hcons by nia. nia.
Qed.

Lemma below_start_value_inconsistent_witness :
  0 < key24.self_long.(B2) /\
  key24.self_long.(B3) <= 2 * key24.self_long.(B2) /\
  key24.self_long.(B2) <= 767 <= key24.self_long.(B3) - 1 /\
  2 <= 19762 < s1_start_value key24.self_long /\
  ~ (key24.self_long.(B2) <= (767 * 19762) mod key24.self_long.(n)
       <= key24.self_long.(B3) - 1).
Proof.
  split; [by vm_compute|]. split; [by vm_compute|]. split; [by vm_compute|].
  split; [by vm_compute|].
  apply (below_start_value_inconsistent key24.self_long 767 19762);
    by vm_compute.
Defined.



(** ** What the driver can return *)

Lemma covers_narrow_mono {Y : Type} (self : attack Y) (si : Z)
  (M : gset (Z * Z)) (v : Z) :
  covers (_narrow_intervals self si M) v -> covers M v.
Proof.
  intros (a' & b' & Hin & Hv).
  apply narrow_within in Hin as (a & b0 & Hin & Hb).
  exists a, b0. split; [done | lia].
Qed.

Lemma multi_interval_loop_covers (self : attack Z) (fuel fuel0 : nat)
  (s1 s' : Z) (newM M' : gset (Z * Z)) (v : Z) :
  multi_interval_loop self fuel fuel0 s1 newM = Return (s', M') ->
  covers M' v -> covers newM v.
Proof.
  revert s1 newM. induction fuel as [|fuel IH]; intros s1 newM;
    cbn [multi_interval_loop]; case_decide; try done.
  - intros Heq Hc. by simplify_eq.
  - destruct (_search_s1 self fuel0 (s1 + 1) self.(y0)) as [s|]; cbn; [|done].
    intros Hrun Hc. eapply covers_narrow_mono, IH; done.
  - intros Heq Hc. by simplify_eq.
Qed.

Lemma single_interval_loop_value (self : attack Z)
  (pop : gset (Z * Z) -> option (Z * Z)) (fuel fuel0 : nat) (s1 : Z)
  (elem : Z * Z) (newM : gset (Z * Z)) (out : string) :
  pop_contract pop ->
  single_interval_loop self pop fuel fuel0 s1 elem newM = Return out ->
  exists v : Z, out = format_0256x v /\ covers newM v.
Proof.
  intros Hpop. revert s1 elem newM.
  induction fuel as [|fuel IH]; intros s1 elem newM Hrun.
  - discriminate Hrun.
  - cbn [single_interval_loop] in Hrun.
    destruct (_just_one_interval self fuel0 s1 elem.1 elem.2) as [s|];
      [|discriminate Hrun].
    cbn in Hrun. unfold pop_add in Hrun.
    pose proof (Hpop (_narrow_intervals self s newM)) as Hin.
    destruct (pop (_narrow_intervals self s newM)) as [[a' b']|];
      [|discriminate Hrun].
    cbn in Hrun. destruct (decide (a' = b')) as [<-|Hne].
    + injection Hrun as <-. exists a'. split; [done|].
      apply (covers_narrow_mono self s). exists a', a'. split; [done | lia].
    + apply IH in Hrun as (v & -> & Hc). exists v. split; [done|].
      by apply (covers_narrow_mono self s).
Qed.

Lemma bind_Return_inv {A C : Type} (m : result A) (f : A -> result C) (c : C) :
  m ≫= f = Return c -> exists a, m = Return a /\ f a = Return c.
Proof. destruct m as [a| |]; [by exists a | done..]. Qed.

Lemma of_fuel_Return_inv {A : Type} (o : option A) (a : A) :
  of_fuel o = Return a -> o = Some a.
Proof. destruct o; [by intros [= ->] | done]. Qed.

Lemma _search_s1_set_y0 {Y Y' : Type} (self : attack Y) (v : Y')
  (fuel : nat) (start_value y : Z) :
  _search_s1 (set_y0 self v) fuel start_value y
  = _search_s1 self fuel start_value y.
Proof.
  revert start_value. induction fuel as [|fuel IH]; intros start_value;
    [done|].
  cbn [_search_s1]. by rewrite IH.
Qed.

(** The stages of [run_attack] that a returned string went through. *)
Lemma run_attack_Return_inv (pop : gset (Z * Z) -> option (Z * Z))
  (fuel : nat) (self : attack (list Byte.byte)) (out : string) :
  run_attack pop fuel self = Return out ->
  exists (s1 s : Z) (M' : gset (Z * Z)) (elem : Z * Z),
    self.(y0) <> [] /\
    _search_s1 self fuel (s1_start_value self) (big_endian self.(y0))
      = Some s1 /\
    multi_interval_loop (set_y0 self (big_endian self.(y0))) fuel fuel s1
      (_calculate_intervals self s1) = Return (s, M') /\
    pop M' = Some elem /\
    single_interval_loop (set_y0 self (big_endian self.(y0))) pop fuel fuel
      s elem M' = Return out.
Proof.
  unfold run_attack. intros Hrun.
  destruct (decide (self.(y0) = [])) as [Hy|Hy]; [by rewrite Hy in Hrun|].
  rewrite _bin2long_eq in Hrun by done.
  apply bind_Return_inv in Hrun as (y & [= <-] & Hrun).
  apply bind_Return_inv in Hrun as (s1 & Hs1 & Hrun).
  apply of_fuel_Return_inv in Hs1. rewrite _search_s1_set_y0 in Hs1.
  apply bind_Return_inv in Hrun as ([s M'] & Hloop & Hrun).
  apply bind_Return_inv in Hrun as (elem & Helem & Hrun).
  unfold pop_add in Helem.
  destruct (pop M') as [elem'|] eqn:Hpop; [|discriminate Helem].
  injection Helem as ->.
  exists s1, s, M', elem. done.
Qed.

(** X16.  Partial correctness of the driver.  With [set.pop()] returning
    an element of the set and [0 <= B2], [0 < B3], [B3 - 1 < n], whatever
    [run_attack] returns is ['%0256x' % v] for a candidate [v] of
    [[B2, B3-1]] that is consistent with the first accepted multiplier [s1]
    (the one Candidate Search finds from [ceil(n/B3)] on):
    [(v * s1) mod n] lies in [[B2, B3-1]]. *)
Theorem run_attack_returns_candidate (pop : gset (Z * Z) -> option (Z * Z))
  (fuel : nat) (self : attack (list Byte.byte)) (out : string) :
  pop_contract pop ->
  0 <= self.(B2) -> 0 < self.(B3) -> self.(B3) - 1 < self.(n) ->
  run_attack pop fuel self = Return out ->
  exists v s1 : Z,
    out = format_0256x v /\
    _search_s1 self fuel (s1_start_value self) (big_endian self.(y0)) = Some s1 /\
    self.(B2) <= v <= self.(B3) - 1 /\
    self.(B2) <= (v * s1) mod self.(n) <= self.(B3) - 1.
Proof.
  intros Hpop HB2 HB3 Hn Hrun.
  apply run_attack_Return_inv in Hrun
    as (s1 & s & M' & elem & Hy & Hs1 & Hloop & _ & Hrun).
  apply single_interval_loop_value in Hrun as (v & -> & Hc); [|done].
  apply multi_interval_loop_covers with (v := v) in Hloop; [|done].
  assert (0 < s1) as Hpos.
  { pose proof Hs1 as Hge. apply _search_s1_Some in Hge as ([Hge _] & _).
    assert (1 <= s1_start_value self); [|lia].
    unfold s1_start_value.
    destruct (decide (_ceil self.(n) self.(B3) <= 0)) as [Hle|]; [|lia].
    apply _ceil_le_iff in Hle; [|done]. lia. }
  apply (calculate_covers_exactly_aux self s1 v) in Hloop; try done.
  exists v, s1. split; [done|]. split; [exact Hs1 | exact Hloop].
Qed.

Lemma pop_first_contract : pop_contract key24.pop_first.
Proof.
  intros M. unfold key24.pop_first.
  destruct (elements M) as [|e l] eqn:HM; simpl.
  - by apply elements_empty_inv in HM; apply leibniz_equiv.
  - apply elem_of_elements. rewrite HM. left.
Qed.

Lemma run_attack_returns_candidate_witness :
  pop_contract key24.pop_first /\
  0 <= key24.self.(B2) /\ 0 < key24.self.(B3) /\
  key24.self.(B3) - 1 < key24.self.(n) /\
  run_attack key24.pop_first 100 key24.self = Return (format_0256x 767) /\
  exists v s1 : Z,
    format_0256x 767 = format_0256x v /\
    _search_s1 key24.self 100 (s1_start_value key24.self)
      (big_endian key24.self.(y0)) = Some s1 /\
    key24.self.(B2) <= v <= key24.self.(B3) - 1 /\
    key24.self.(B2) <= (v * s1) mod key24.self.(n) <= key24.self.(B3) - 1.
Proof.
  split; [exact pop_first_contract|]. split; [by vm_compute|].
  split; [by vm_compute|]. split; [by vm_compute|]. split; [by vm_compute|].
  apply (run_attack_returns_candidate key24.pop_first 100 key24.self);
    [exact pop_first_contract | by vm_compute..].
Defined.

(** ** A sound oracle keeps the plaintext in the set *)

Section sound_oracle.
Context (self : attack Z) (m0 : Z).
Hypothesis Hn : 0 < self.(n).
Hypothesis HB2 : 0 < self.(B2).
Hypothesis Hsound : sound_for self self.(y0) m0.

Lemma multi_interval_loop_sound (fuel fuel0 : nat) (s1 s' : Z)
  (newM M' : gset (Z * Z)) :
  0 < s1 -> accepted self self.(y0) s1 -> covers newM m0 ->
  multi_interval_loop self fuel fuel0 s1 newM = Return (s', M') ->
  0 < s' /\ accepted self self.(y0) s' /\ covers M' m0 /\
  (size M' <= 1)%nat.
Proof.
  revert s1 newM. induction fuel as [|fuel IH]; intros s1 newM Hpos Hacc Hc;
    cbn [multi_interval_loop]; case_decide; try done.
  - intros Heq. simplify_eq. split; [done|]. split; [done|]. split; [done | lia].
  - intros Hrun. apply bind_Return_inv in Hrun as (s & Hs & Hrun).
    apply of_fuel_Return_inv, _search_s1_Some in Hs as (Hge & Hacc' & _).
    apply (IH s (_narrow_intervals self s1 newM)); [lia | done | | done].
    apply covers_narrow_intro; [done.. |]. by apply Hsound.
  - intros Heq. simplify_eq. split; [done|]. split; [done|]. split; [done | lia].
Qed.

Lemma single_interval_loop_sound
  (pop : gset (Z * Z) -> option (Z * Z)) (fuel fuel0 : nat) (s1 : Z)
  (elem : Z * Z) (newM : gset (Z * Z)) (e : exn) :
  pop_contract pop ->
  0 < s1 -> covers newM m0 ->
  (forall a b0 : Z, (a, b0) ∈ newM -> self.(B2) <= a /\ a <= b0) ->
  elem ∈ newM ->
  single_interval_loop self pop fuel fuel0 s1 elem newM <> Raise e.
Proof.
  intros Hpop. revert s1 elem newM.
  induction fuel as [|fuel IH]; intros s1 [a b0] newM Hpos Hc Hwithin Helem;
    [done|].
  cbn [single_interval_loop].
  destruct (_just_one_interval self fuel0 s1 (a, b0).1 (a, b0).2) as [s|] eqn:Hs;
    [|done].
  cbn. apply _just_one_interval_result in Hs as [Hacc Hgrow].
  destruct (Hwithin a b0 Helem) as [Ha Hab]. simpl in Hgrow.
  specialize (Hgrow Hn ltac:(lia)).
  assert (0 < s) as Hs by nia.
  assert (covers (_narrow_intervals self s newM) m0) as Hc'
    by (apply covers_narrow_intro; [done.. |]; by apply Hsound).
  unfold pop_add.
  pose proof (Hpop (_narrow_intervals self s newM)) as Hin.
  destruct (pop (_narrow_intervals self s newM)) as [elem'|].
  - cbn. case_decide; [done|]. apply IH; try done.
    intros a' b' Hin'. apply narrow_within in Hin' as (a1 & b1 & Hin1 & Hb).
    destruct (Hwithin a1 b1 Hin1). lia.
  - exfalso. destruct Hc' as (a' & b' & Hin' & _).
    rewrite Hin in Hin'. by apply not_elem_of_empty in Hin'.
Qed.
End sound_oracle.

Lemma narrow_keeps_within {Y : Type} (self : attack Y) (si : Z)
  (M : gset (Z * Z)) :
  (forall a b0 : Z, (a, b0) ∈ M -> self.(B2) <= a /\ a <= b0) ->
  forall a b0 : Z, (a, b0) ∈ _narrow_intervals self si M ->
    self.(B2) <= a /\ a <= b0.
Proof.
  intros Hwithin a' b' Hin. apply narrow_within in Hin as (a & b0 & Hin & Hb).
  destruct (Hwithin a b0 Hin). lia.
Qed.

Lemma multi_interval_loop_within (self : attack Z) (fuel fuel0 : nat)
  (s1 s' : Z) (newM M' : gset (Z * Z)) :
  multi_interval_loop self fuel fuel0 s1 newM = Return (s', M') ->
  (forall a b0 : Z, (a, b0) ∈ newM -> self.(B2) <= a /\ a <= b0) ->
  forall a b0 : Z, (a, b0) ∈ M' -> self.(B2) <= a /\ a <= b0.
Proof.
  revert s1 newM. induction fuel as [|fuel IH]; intros s1 newM;
    cbn [multi_interval_loop]; case_decide; try done.
  - intros Heq Hw. by simplify_eq.
  - intros Hrun Hw. apply bind_Return_inv in Hrun as (s & _ & Hrun).
    apply (IH _ _ Hrun). by apply narrow_keeps_within.
  - intros Heq Hw. by simplify_eq.
Qed.

Lemma bind_Raise_inv {A C : Type} (m : result A) (f : A -> result C) (e : exn) :
  m ≫= f = Raise e -> m = Raise e \/ exists a, m = Return a /\ f a = Raise e.
Proof.
  destruct m as [a|e'|]; intros Hm.
  - right. by exists a.
  - left. by injection Hm as ->.
  - discriminate Hm.
Qed.

(** X17.  With a sound oracle the interval set never runs empty: if every
    accepted positive multiplier [s] has [(m0 * s) mod n] in [[B2, B3-1]]
    for a plaintext [m0] of [[B2, B3-1]], and [set.pop()] returns an
    element of the set, then [run_attack] never raises [KeyError]. *)
Theorem run_attack_no_KeyError (pop : gset (Z * Z) -> option (Z * Z))
  (fuel : nat) (self : attack (list Byte.byte)) (m0 : Z) :
  pop_contract pop ->
  0 < self.(n) -> 0 < self.(B2) -> 0 < self.(B3) ->
  self.(B2) <= m0 <= self.(B3) - 1 ->
  sound_for self (big_endian self.(y0)) m0 ->
  run_attack pop fuel self <> Raise KeyError.
Proof.
  intros Hpop Hn HB2 HB3 Hm Hsound Hrun. unfold run_attack in Hrun.
  destruct (decide (self.(y0) = [])) as [Hy|Hy].
  { rewrite Hy in Hrun. discriminate Hrun. }
  rewrite _bin2long_eq in Hrun by done.
  apply bind_Raise_inv in Hrun as [Hrun|(y & [= <-] & Hrun)]; [done|].
  set (self' := set_y0 self (big_endian self.(y0))) in *.
  apply bind_Raise_inv in Hrun as [Hrun|(s1 & Hs1 & Hrun)].
  { by destruct (_search_s1 _ _ _ _). }
  apply of_fuel_Return_inv in Hs1. pose proof Hs1 as Hs1'.
  apply _search_s1_Some in Hs1' as ([Hge _] & Hacc & _).
  assert (0 < s1) as Hpos.
  { assert (1 <= s1_start_value self'); [|lia].
    unfold s1_start_value.
    destruct (decide (_ceil self'.(n) self'.(B3) <= 0)) as [Hle|]; [|lia].
    apply _ceil_le_iff in Hle; [|done]. change self'.(n) with self.(n) in Hle.
    lia. }
  assert (covers (_calculate_intervals self' s1) m0) as Hc.
  { rewrite _calculate_intervals_narrow.
    apply covers_narrow_intro; [done.. | | by apply Hsound].
    exists self.(B2), (self.(B3) - 1). split; [by apply elem_of_singleton | done]. }
  apply bind_Raise_inv in Hrun as [Hrun|([s M'] & Hloop & Hrun)].
  { by apply multi_interval_loop_no_raise in Hrun. }
  pose proof Hloop as Hcov.
  apply (multi_interval_loop_sound self' m0 Hn Hsound) in Hloop
    as (Hpos' & Hacc' & Hc' & _); [|done..].
  apply bind_Raise_inv in Hrun as [Hrun|(elem & Helem & Hrun)].
  - unfold pop_add in Hrun. pose proof (Hpop M') as Hin.
    destruct (pop M'); [done|].
    destruct Hc' as (a' & b' & Hin' & _).
    rewrite Hin in Hin'. by apply not_elem_of_empty in Hin'.
  - unfold pop_add in Helem. pose proof (Hpop M') as Hin.
    destruct (pop M') as [elem'|]; [|done]. injection Helem as ->.
    revert Hrun. apply (single_interval_loop_sound self' m0 Hn HB2 Hsound);
      try done.
    apply (multi_interval_loop_within self' _ _ _ _ _ _ Hcov).
    intros a b0 (r & _ & [= -> ->] & Hle)%elem_of_calculate_intervals.
    simpl in Hle. change self'.(B2) with self.(B2). lia.
Qed.

Lemma exponent_one_sound : sound_for exponent_one (big_endian exponent_one.(y0)) 767.
Proof.
  intros s Hs Hacc. unfold accepted, trial, _encrypt_int, rsa_core.encrypt_int in Hacc.
  change (big_endian exponent_one.(y0)) with 767 in Hacc.
  change exponent_one.(b) with 1 in Hacc.
  rewrite Z.pow_1_r, Z.mul_mod_idemp_l in Hacc by done.
  unfold consistent. replace (767 * s) with (s * 767) by lia.
  change exponent_one.(B2) with 512. change (exponent_one.(B3) - 1) with 767.
  change (exponent_one.(padding_oracle) ((s * 767) mod exponent_one.(n)))
    with ((512 <=? (s * 767) mod exponent_one.(n))
          && ((s * 767) mod exponent_one.(n) <=? 767)) in Hacc.
  apply andb_prop in Hacc as [H1 H2]. lia.
Qed.

Lemma run_attack_no_KeyError_witness :
  pop_contract key24.pop_first /\
  0 < exponent_one.(n) /\ 0 < exponent_one.(B2) /\ 0 < exponent_one.(B3) /\
  exponent_one.(B2) <= 767 <= exponent_one.(B3) - 1 /\
  sound_for exponent_one (big_endian exponent_one.(y0)) 767 /\
  run_attack key24.pop_first 100 exponent_one <> Raise KeyError.
Proof.
  split; [exact pop_first_contract|]. split; [by vm_compute|].
  split; [by vm_compute|]. split; [by vm_compute|]. split; [by vm_compute|].
  split; [exact exponent_one_sound|].
  apply (run_attack_no_KeyError key24.pop_first 100 exponent_one 767);
    [exact pop_first_contract | by vm_compute.. | exact exponent_one_sound].
Defined.

Example run_attack_exponent_one :
  run_attack key24.pop_first 100 exponent_one = Return (format_0256x 767).
Proof. by vm_compute. Qed.

(** ** The end of the multi-interval phase *)

Lemma multi_interval_loop_ge (self : attack Z) (fuel fuel0 : nat)
  (s1 s' : Z) (newM M' : gset (Z * Z)) :
  multi_interval_loop self fuel fuel0 s1 newM = Return (s', M') -> s1 <= s'.
Proof.
  revert s1 newM. induction fuel as [|fuel IH]; intros s1 newM;
    cbn [multi_interval_loop]; case_decide; try done.
  - intros Heq. simplify_eq. lia.
  - intros Hrun. apply bind_Return_inv in Hrun as (s & Hs & Hrun).
    apply of_fuel_Return_inv, _search_s1_Some in Hs as (Hge & _).
    apply IH in Hrun. lia.
  - intros Heq. simplify_eq. lia.
Qed.

(** X18.  With a sound oracle the multi-interval phase ends on exactly one
    interval, and that interval holds the plaintext: if the phase is
    entered with an accepted multiplier [s1 > 0] and a set covering [m0],
    it leaves with an accepted multiplier [s' >= s1] and a set
    [{(a, b)}] with [a <= m0 <= b]. *)
Theorem multi_interval_loop_exit (self : attack Z) (m0 : Z)
  (fuel fuel0 : nat) (s1 s' : Z) (newM M' : gset (Z * Z)) :
  0 < self.(n) -> sound_for self self.(y0) m0 ->
  0 < s1 -> accepted self self.(y0) s1 -> covers newM m0 ->
  multi_interval_loop self fuel fuel0 s1 newM = Return (s', M') ->
  s1 <= s' /\ accepted self self.(y0) s' /\
  exists a b0 : Z, M' = {[ (a, b0) ]} /\ a <= m0 <= b0.
Proof.
  intros Hn Hsound Hpos Hacc Hc Hrun.
  split; [by eapply multi_interval_loop_ge|].
  apply (multi_interval_loop_sound self m0 Hn Hsound) in Hrun
    as (_ & Hacc' & (a & b0 & Hin & Hm) & Hsize); [|done..].
  split; [done|]. exists a, b0. split; [|done].
  assert (size M' = 1%nat) as Hone.
  { destruct (size M') as [|[|c]] eqn:Hs; [|done|lia].
    apply size_empty_inv in Hs. apply leibniz_equiv in Hs.
    rewrite Hs in Hin. by apply not_elem_of_empty in Hin. }
  apply size_1_elem_of in Hone as (p & Hp). apply leibniz_equiv in Hp.
  rewrite Hp in Hin. apply elem_of_singleton in Hin. by rewrite Hp, Hin.
Qed.

Lemma exponent_one_long_sound :
  sound_for exponent_one_long exponent_one_long.(y0) 767.
Proof. exact exponent_one_sound. Qed.

Lemma multi_interval_loop_exit_witness :
  0 < exponent_one_long.(n) /\
  sound_for exponent_one_long exponent_one_long.(y0) 767 /\
  0 < 19789 /\ accepted exponent_one_long exponent_one_long.(y0) 19789 /\
  covers {[ (512, 600); (700, 767) ]} 767 /\
  multi_interval_loop exponent_one_long 2 (200 * 100) 19789
    {[ (512, 600); (700, 767) ]} = Return (39577, {[ (767, 767) ]}) /\
  19789 <= 39577 /\ accepted exponent_one_long exponent_one_long.(y0) 39577 /\
  exists a b0 : Z, ({[ (767, 767) ]} : gset (Z * Z)) = {[ (a, b0) ]} /\
                   a <= 767 <= b0.
Proof.
  assert (covers {[ (512, 600); (700, 767) ]} 767) as Hc.
  { exists 700, 767. split; [|lia]. apply elem_of_union_r.
    by apply elem_of_singleton. }
  split; [by vm_compute|]. split; [exact exponent_one_long_sound|].
  split; [by vm_compute|]. split; [by vm_compute|]. split; [exact Hc|].
  split; [by vm_compute|].
  apply (multi_interval_loop_exit exponent_one_long 767 2 (200 * 100) 19789
           39577 {[ (512, 600); (700, 767) ]} {[ (767, 767) ]});
    [by vm_compute | exact exponent_one_long_sound | by vm_compute
    | by vm_compute | exact Hc | by vm_compute].
Defined.

(** ** The final loop on a point *)

(** X19.  Once the interval set is a single point [{(m0, m0)}], the final
    loop can return nothing but ['%0256x' % m0], whatever the oracle
    answers from then on ([set.pop()] returning an element of the set). *)
Theorem single_interval_loop_point (self : attack Z)
  (pop : gset (Z * Z) -> option (Z * Z)) (fuel fuel0 : nat) (s1 : Z)
  (elem : Z * Z) (m0 : Z) (out : string) :
  pop_contract pop ->
  single_interval_loop self pop fuel fuel0 s1 elem {[ (m0, m0) ]} = Return out ->
  out = format_0256x m0.
Proof.
  intros Hpop Hrun.
  apply single_interval_loop_value in Hrun
    as (v & -> & a & b0 & Hin & Hv); [|done].
  apply elem_of_singleton in Hin. injection Hin as -> ->.
  by replace v with m0 by lia.
Qed.

Lemma single_interval_loop_point_witness :
  pop_contract key24.pop_first /\
  single_interval_loop key24.self_long key24.pop_first 1 1 19789 (767, 767)
    {[ (767, 767) ]} = Return (format_0256x 767) /\
  format_0256x 767 = format_0256x 767.
Proof.
  split; [exact pop_first_contract|]. split; [by vm_compute|].
  apply (single_interval_loop_point key24.self_long key24.pop_first 1 1 19789
           (767, 767) 767 (format_0256x 767));
    [exact pop_first_contract | by vm_compute].
Defined.

(** ** More on the division helpers *)

(** X20.  [_ceil] and [_floor] are dual for every non-zero divisor,
    negative ones included: [_ceil(x, y) = -_floor(-x, y)]. *)
Theorem ceil_is_neg_floor_neg (x y : Z) :
  y <> 0 -> _ceil x y = - _floor (- x) y.
Proof. intros Hy. by rewrite _ceil_cdiv. Qed.

Lemma ceil_is_neg_floor_neg_witness :
  -2 <> 0 /\ _ceil 7 (-2) = - _floor (- 7) (-2).
Proof.
  split; [done|]. apply (ceil_is_neg_floor_neg 7 (-2)). done.
Defined.

(** ** The bounds set by the constructor *)

(** X21.  For a key size [k >= 16] and a modulus of at least [k] bits
    ([n >= 2^(k-1)]) the instance built by [__init__] has
    [0 < B2 < B3 <= 2*B2], [B3 - 1 < n], and a first multiplier
    [ceil(n/B3)] of at least 2. *)
Theorem init_bounds {Y : Type} (k0 n0 b0 : Z) (y : Y) (oracle : Z -> bool)
  (self : attack Y) :
  16 <= k0 -> 2 ^ (k0 - 1) <= n0 ->
  __init__ k0 n0 b0 y oracle = Return self ->
  0 < self.(B2) /\ self.(B2) < self.(B3) /\ self.(B3) <= 2 * self.(B2) /\
  self.(B3) - 1 < self.(n) /\ 2 <= s1_start_value self.
Proof.
  intros Hk Hn Heq. injection Heq as <-.
  assert (0 < 2 ^ (k0 - 16)) as HB by (apply Z.pow_pos_nonneg; lia).
  assert (2 ^ (k0 - 1) = 32768 * 2 ^ (k0 - 16)) as Hpow.
  { replace (k0 - 1) with (15 + (k0 - 16)) by lia.
    by rewrite Z.pow_add_r by lia. }
  assert (3 * 2 ^ (k0 - 16) < n0) as Hlt by lia.
  split; [simpl; lia|]. split; [simpl; lia|]. split; [simpl; lia|].
  split; [simpl; lia|]. apply s1_start_value_ge_2. simpl. lia.
Qed.

Lemma init_bounds_witness :
  16 <= 24 /\ 2 ^ (24 - 1) <= 15177431 /\
  __init__ 24 15177431 11 key24.ciphertext key24.oracle = Return key24.self /\
  0 < key24.self.(B2) /\ key24.self.(B2) < key24.self.(B3) /\
  key24.self.(B3) <= 2 * key24.self.(B2) /\
  key24.self.(B3) - 1 < key24.self.(n) /\ 2 <= s1_start_value key24.self.
Proof.
  split; [lia|]. split; [by vm_compute|]. split; [reflexivity|].
  apply (init_bounds 24 15177431 11 key24.ciphertext key24.oracle key24.self);
    [lia | by vm_compute | reflexivity].
Defined.

(** ** Restarting Candidate Search *)

(** X22.  Candidate Search only depends on where the next accepted
    multiplier lies: if the search from [start_value] returns [s1], the
    search from any [start'] with [start_value <= start' <= s1] returns
    [s1] as well; in particular the search from [s1] returns [s1]. *)
Theorem search_s1_restart {Y : Type} (self : attack Y) (fuel : nat)
  (start_value start' y0 s1 : Z) :
  _search_s1 self fuel start_value y0 = Some s1 ->
  start_value <= start' <= s1 ->
  _search_s1 self fuel start' y0 = Some s1.
Proof.
  intros Hrun Hs. apply _search_s1_Some in Hrun as (Hb & Hacc & Hmin).
  apply _search_s1_Some. split; [lia|]. split; [done|].
  intros t Ht. apply Hmin. lia.
Qed.

Lemma search_s1_restart_witness :
  _search_s1 key24.self_long 100 19763 179671 = Some 19789 /\
  19763 <= 19780 <= 19789 /\
  _search_s1 key24.self_long 100 19780 179671 = Some 19789.
Proof.
  split; [by vm_compute|]. split; [lia|].
  apply (search_s1_restart key24.self_long 100 19763 19780 179671 19789);
    [by vm_compute | lia].
Defined.

(** ** Narrowing, interval by interval *)

(** X23.  Every interval is narrowed on its own: the narrowing of a union
    is the union of the narrowings, and the narrowing of the empty set is
    empty. *)
Theorem narrow_union {Y : Type} (self : attack Y) (si : Z)
  (M1 M2 : gset (Z * Z)) :
  _narrow_intervals self si ∅ = ∅ /\
  _narrow_intervals self si (M1 ∪ M2)
  = _narrow_intervals self si M1 ∪ _narrow_intervals self si M2.
Proof.
  split.
  - apply set_eq. intros p. rewrite elem_of_narrow_intervals. split.
    + intros (a & b0 & r & Hin & _). by apply not_elem_of_empty in Hin.
    + intros Hin. by apply not_elem_of_empty in Hin.
  - apply set_eq. intros p.
    rewrite elem_of_union, !elem_of_narrow_intervals. split.
    + intros (a & b0 & r & [Hin|Hin]%elem_of_union & Hrest);
        [left | right]; by exists a, b0, r.
    + intros [(a & b0 & r & Hin & Hrest)|(a & b0 & r & Hin & Hrest)];
        exists a, b0, r; (split; [|done]).
      * by apply elem_of_union_l.
      * by apply elem_of_union_r.
Qed.

(** X24.  The intervals never overlap.  For [n > 0], [B3 - B2 <= n] and a
    multiplier [si > 0], the set computed by [_calculate_intervals] is
    pairwise disjoint, and [_narrow_intervals] turns a pairwise disjoint
    set into a pairwise disjoint set. *)
Theorem intervals_stay_disjoint {Y : Type} (self : attack Y) (si : Z)
  (M : gset (Z * Z)) :
  0 < self.(n) -> self.(B3) - self.(B2) <= self.(n) -> 0 < si ->
  pairwise_disjoint (_calculate_intervals self si) /\
  (pairwise_disjoint M -> pairwise_disjoint (_narrow_intervals self si M)).
Proof.
  intros Hn HB Hsi.
  assert (forall M0 : gset (Z * Z), pairwise_disjoint M0 ->
            pairwise_disjoint (_narrow_intervals self si M0)) as Hkeep.
  { intros M0 Hd p q v
      (a & b0 & r & Hin & _ & -> & _)%elem_of_narrow_intervals
      (a' & b' & r' & Hin' & _ & -> & _)%elem_of_narrow_intervals Hp Hq.
    simpl in Hp, Hq.
    assert ((a, b0) = (a', b')) as Heq
      by (apply (Hd _ _ v); [done | done | simpl; lia | simpl; lia]).
    injection Heq as <- <-.
    assert (self.(B2) + r * self.(n) <= v * si <= self.(B3) - 1 + r * self.(n))
      as Hw by (apply bracket_iff; [done | lia]).
    assert (self.(B2) + r' * self.(n) <= v * si
              <= self.(B3) - 1 + r' * self.(n))
      as Hw' by (apply bracket_iff; [done | lia]).
    assert (r = r') as <- by nia. done. }
  split; [|apply Hkeep].
  rewrite _calculate_intervals_narrow. apply Hkeep.
  intros p q v Hp%elem_of_singleton Hq%elem_of_singleton _ _. congruence.
Qed.

Lemma intervals_stay_disjoint_witness :
  0 < key24.self_long.(n) /\
  key24.self_long.(B3) - key24.self_long.(B2) <= key24.self_long.(n) /\
  0 < 19789 /\
  pairwise_disjoint (_calculate_intervals key24.self_long 19789) /\
  (pairwise_disjoint {[ (512, 767) ]} ->
   pairwise_disjoint (_narrow_intervals key24.self_long 19789 {[ (512, 767) ]})).
Proof.
  split; [by vm_compute|]. split; [by vm_compute|]. split; [lia|].
  apply (intervals_stay_disjoint key24.self_long 19789 {[ (512, 767) ]});
    [by vm_compute | by vm_compute | lia].
Defined.
